(** * sqlchain: the chain engine of [sqlchain/chain.go]

    A shallow embedding of the chain engine: the height/key codec, the
    runtime (clock, turn counter, stop signal), the persistent bucket
    layout of the bolt store, and the chain operations that compose them.

    Conventions.
    - An [int32] is a [Z] kept in [-2^31, 2^31) by {!wrap32}; the Go
      operators [+], [-] and [++] on [int32] are {!add32} and {!sub32}.
    - A byte is a [Z] in [0, 256); [[]byte] and [hash.Hash] are [list Z].
    - A Go map is a [gmap]; a bolt bucket, which iterates in key order, is
      an association list kept sorted by [bytes.Compare].
    - Collaborators outside the file (signature verification, the binary
      codec of blocks and headers, the key store, the failures of the bolt
      store) are the fields of one record, {!Env}. *)

From stdpp Require Import base option list gmap.
From Stdlib Require Import ZArith Lia.

Open Scope Z_scope.

(** ** Machine integers and bytes *)

Definition byte := Z.
Definition bytes := list Z.

Definition is_byte (b : Z) : Prop := 0 <= b < 256.
Definition is_int32 (h : Z) : Prop := -2147483648 <= h < 2147483648.
Definition is_uint32 (u : Z) : Prop := 0 <= u < 4294967296.

(** [uint32(h)] for an [int32] (or wider) [h]. *)
Definition to_uint32 (h : Z) : Z := h mod 4294967296.

(** [int32(u)] for a [uint32] [u]. *)
Definition to_int32 (u : Z) : Z :=
  if u <? 2147483648 then u else u - 4294967296.

(** Reduction of a mathematical integer to the [int32] the hardware keeps. *)
Definition wrap32 (z : Z) : Z := to_int32 (to_uint32 z).

Definition add32 (a b : Z) : Z := wrap32 (a + b).
Definition sub32 (a b : Z) : Z := wrap32 (a - b).

(** [byte(x)]: the low eight bits. *)
Definition to_byte (x : Z) : Z := Z.land x 255.

(** ** Height keys

    [binary.BigEndian.PutUint32] and [binary.BigEndian.Uint32]. *)

Definition PutUint32 (v : Z) : bytes :=
  [ to_byte (Z.shiftr v 24); to_byte (Z.shiftr v 16);
    to_byte (Z.shiftr v 8); to_byte v ].

(** [Uint32] reads the first four bytes and faults on a shorter slice. *)
Definition Uint32 (b : bytes) : option Z :=
  match b with
  | b0 :: b1 :: b2 :: b3 :: _ =>
      Some (Z.lor (Z.lor (Z.lor b3 (Z.shiftl b2 8)) (Z.shiftl b1 16))
                  (Z.shiftl b0 24))
  | _ => None
  end.

(** [HeightToKey] converts a height in int32 to a key in bytes. *)
Definition HeightToKey (h : Z) : bytes := PutUint32 (to_uint32 h).

(** [KeyToHeight] converts a height back from a key in bytes; [None] is the
    run-time fault of reading a key shorter than four bytes. *)
Definition KeyToHeight (k : bytes) : option Z :=
  to_int32 <$> Uint32 k.

(** ** Hashes, times, blocks and query headers *)

(** [hash.Hash]: a 32-byte array. *)
Definition Hash := bytes.

(** [Hash.IsEqual] on two non-nil hashes. *)
Definition Hash_IsEqual (a b : Hash) : bool := bool_decide (a = b).

(** [time.Time] as an instant and [time.Duration] as a span, both counted
    in nanoseconds. *)
Definition Time := Z.
Definition Duration := Z.

(** [ct.Header], [ct.SignedHeader] and [ct.Block]. *)
Record Header := mkHeader {
  Version : Z;
  Producer : Z;
  GenesisHash : Hash;
  ParentHash : Hash;
  Timestamp : Time
}.

Record SignedHeader := mkSignedHeader {
  sh_Header : Header;
  BlockHash : Hash;
  Signee : Z;
  Signature : Z
}.

Record Block := mkBlock {
  b_SignedHeader : SignedHeader;
  Queries : list Hash
}.

Definition block_ParentHash (b : Block) : Hash :=
  ParentHash (sh_Header (b_SignedHeader b)).
Definition block_Timestamp (b : Block) : Time :=
  Timestamp (sh_Header (b_SignedHeader b)).
Definition block_BlockHash (b : Block) : Hash :=
  BlockHash (b_SignedHeader b).

Definition set_ParentHash (p : Hash) (b : Block) : Block :=
  let sh := b_SignedHeader b in
  let h := sh_Header sh in
  mkBlock
    (mkSignedHeader
       (mkHeader (Version h) (Producer h) (GenesisHash h) p (Timestamp h))
       (BlockHash sh) (Signee sh) (Signature sh))
    (Queries b).

Definition set_Timestamp (t : Time) (b : Block) : Block :=
  let sh := b_SignedHeader b in
  let h := sh_Header sh in
  mkBlock
    (mkSignedHeader
       (mkHeader (Version h) (Producer h) (GenesisHash h) (ParentHash h) t)
       (BlockHash sh) (Signee sh) (Signature sh))
    (Queries b).

(** Modelled from the spec: [Block.PushAckedQuery], of the missing
    [sqlchain/types] package, appends the ack's header hash to the pending
    block's [Queries]. *)
Definition Block_PushAckedQuery (q : Hash) (b : Block) : Block :=
  mkBlock (b_SignedHeader b) (Queries b ++ [q]).

(** [wt.SignedRequestHeader], [wt.SignedResponseHeader] and
    [wt.SignedAckHeader]: each wraps its predecessor and carries its own
    timestamp and header hash. *)
Record SignedRequestHeader := mkRequest {
  req_Timestamp : Time;
  req_HeaderHash : Hash
}.

Record SignedResponseHeader := mkResponse {
  Request : SignedRequestHeader;
  resp_Timestamp : Time;
  resp_HeaderHash : Hash
}.

Record SignedAckHeader := mkAck {
  ack_Response : SignedResponseHeader;
  ack_Timestamp : Time;
  ack_HeaderHash : Hash
}.

(** [ack.SignedResponseHeader()]: the wrapped response. *)
Definition ack_SignedResponseHeader (a : SignedAckHeader)
  : SignedResponseHeader := ack_Response a.

#[global] Instance SignedRequestHeader_eq_dec : EqDecision SignedRequestHeader.
Proof. solve_decision. Defined.
#[global] Instance SignedResponseHeader_eq_dec : EqDecision SignedResponseHeader.
Proof. solve_decision. Defined.
#[global] Instance SignedAckHeader_eq_dec : EqDecision SignedAckHeader.
Proof. solve_decision. Defined.

(** ** Errors

    The errors of the package itself, and the errors that reach it from
    its collaborators (the bolt store, the codec, the key store, signature
    verification), which cannot be any of the package's own. *)

Inductive ExtError :=
| BoltErrIncompatibleValue
| ExtFailure (code : Z).

Inductive Error :=
| ErrParentNotFound
| ErrInvalidBlock
| ErrBlockExists
| ErrBlockTimestampOutOfPeriod
| ErrMultipleResponses
| ErrMultipleAcks
| ErrMultipleAcksInBlocks
| ErrAckNotFound
| ErrQueryExpired
| ErrExt (e : ExtError).

#[global] Instance ExtError_eq_dec : EqDecision ExtError.
Proof. solve_decision. Defined.
#[global] Instance Error_eq_dec : EqDecision Error.
Proof. solve_decision. Defined.

(** A Go [error] result: [None] is [nil]. *)
Definition err := option Error.

Definition ext (e : option ExtError) : err := ErrExt <$> e.

(** ** Block nodes and the block index

    [sqlchain/blockindex.go] is not among the sources. *)

#[warnings="-register-all"]
Inductive blockNode := BlockNode {
  bn_hash : Hash;
  bn_height : Z;
  bn_parent : option blockNode
}.

(** Modelled from the spec: [newBlockNode] and [initBlockNode] of the
    missing block index file; the node gets the block's hash, its parent,
    and the parent's height plus one, or height 0 without a parent. *)
Definition newBlockNode (b : Block) (parent : option blockNode) : blockNode :=
  BlockNode (block_BlockHash b)
            (match parent with
             | Some p => add32 (bn_height p) 1
             | None => 0
             end)
            parent.

(** Modelled from the spec: [blockNode.initBlockNode] of the missing block
    index file fills a node in place with what [newBlockNode] computes. *)
Definition initBlockNode (b : Block) (parent : option blockNode) : blockNode :=
  newBlockNode b parent.

(** Modelled from the spec: [blockNode.indexKey] of the missing block index
    file; the big-endian height followed by the block hash. *)
Definition indexKey (n : blockNode) : bytes :=
  HeightToKey (bn_height n) ++ bn_hash n.

(** Modelled from the spec: [blockNode.ancestor] of the missing block index
    file; walks the parent pointers until the height matches, and finds
    nothing for a height above the node or below genesis. *)
Fixpoint ancestor_of (n : blockNode) (h : Z) : option blockNode :=
  if bn_height n =? h then Some n
  else match bn_parent n with
       | Some p => ancestor_of p h
       | None => None
       end.

(** Modelled from the spec: the call [n.ancestor(h)] on a node pointer,
    which finds nothing from a nil node. *)
Definition ancestor (n : option blockNode) (h : Z) : option blockNode :=
  match n with
  | Some n => if (h <? 0) || (bn_height n <? h) then None else ancestor_of n h
  | None => None
  end.

(** Modelled from the spec: the [blockIndex] of the missing block index
    file, a map from block hash to node with [AddBlock], [LookupNode] and
    [HasBlock]. *)
Abbreviation blockIndex := (gmap Hash blockNode).

(** Modelled from the spec: [newBlockIndex], the empty index. *)
Definition newBlockIndex : blockIndex := ∅.

(** Modelled from the spec: [blockIndex.AddBlock] inserts the node under
    its hash. *)
Definition AddBlock (n : blockNode) (bi : blockIndex) : blockIndex :=
  <[bn_hash n := n]> bi.

(** Modelled from the spec: [blockIndex.LookupNode], the node of a hash, if
    any. *)
Definition LookupNode (bi : blockIndex) (h : Hash) : option blockNode :=
  bi !! h.

(** Modelled from the spec: [blockIndex.HasBlock], whether the hash has a
    node. *)
Definition HasBlock (bi : blockIndex) (h : Hash) : bool :=
  bool_decide (is_Some (bi !! h)).

(** ** The query index

    [sqlchain/queryindex.go] is not among the sources; the index keeps
    header values per height. *)

(** Modelled from the spec: the records of the missing query index file,
    a response with its ack and first block, an ack with the blocks that
    list it, and the three tables of a height. *)
Record ResponseRecord := mkResponseRecord {
  rr_header : SignedResponseHeader;
  rr_ack : option SignedAckHeader;
  rr_firstAckBlock : option Hash
}.

(** An ack record without an ack is the placeholder left by a block that
    names an ack not yet received. *)
Record AckRecord := mkAckRecord {
  ar_ack : option SignedAckHeader;
  ar_blocks : list Hash
}.

Record HeightIndex := mkHeightIndex {
  hi_responses : gmap Hash ResponseRecord;
  hi_acks : gmap Hash AckRecord;
  hi_signedBlocks : gmap Hash Block
}.

Abbreviation QueryIndex := (gmap Z HeightIndex).

(** Modelled from the spec: the index of a height that has no entry yet,
    and [NewQueryIndex], the index without heights. *)
Definition newHeightIndex : HeightIndex := mkHeightIndex ∅ ∅ ∅.

Definition NewQueryIndex : QueryIndex := ∅.

(** The index of height [h], empty when the height has none. *)
Definition heightIndex (qi : QueryIndex) (h : Z) : HeightIndex :=
  default newHeightIndex (qi !! h).

(** Modelled from the spec: [QueryIndex.AddResponse] of the missing query
    index file; inserts under the response's header hash at height [h], is
    idempotent for an identical response and fails with
    [ErrMultipleResponses] when a different response has that hash. *)
Definition AddResponse (h : Z) (resp : SignedResponseHeader) (qi : QueryIndex)
  : QueryIndex * err :=
  let hi := heightIndex qi h in
  match hi_responses hi !! resp_HeaderHash resp with
  | Some r =>
      if bool_decide (rr_header r = resp) then (qi, None)
      else (qi, Some ErrMultipleResponses)
  | None =>
      (<[h := mkHeightIndex
                (<[resp_HeaderHash resp := mkResponseRecord resp None None]>
                   (hi_responses hi))
                (hi_acks hi) (hi_signedBlocks hi)]> qi, None)
  end.

(** Modelled from the spec: [QueryIndex.AddAck] of the missing query index
    file; looks up the wrapped response at height [h], inserts it when it
    is absent, fails with [ErrMultipleAcks] when it already has an ack of
    another hash, and otherwise attaches the ack and records it among the
    acks of that height, keeping the blocks a placeholder already lists. *)
Definition AddAck (h : Z) (ack : SignedAckHeader) (qi : QueryIndex)
  : QueryIndex * err :=
  let hi := heightIndex qi h in
  let resp := ack_SignedResponseHeader ack in
  let r := default (mkResponseRecord resp None None)
                   (hi_responses hi !! resp_HeaderHash resp) in
  let blocks := match hi_acks hi !! ack_HeaderHash ack with
                | Some a => ar_blocks a
                | None => []
                end in
  let attached :=
    <[h := mkHeightIndex
             (<[resp_HeaderHash resp :=
                  mkResponseRecord (rr_header r) (Some ack)
                                   (rr_firstAckBlock r)]> (hi_responses hi))
             (<[ack_HeaderHash ack := mkAckRecord (Some ack) blocks]>
                (hi_acks hi))
             (hi_signedBlocks hi)]> qi in
  match rr_ack r with
  | Some a =>
      if Hash_IsEqual (ack_HeaderHash a) (ack_HeaderHash ack)
      then (attached, None)
      else (qi, Some ErrMultipleAcks)
  | None => (attached, None)
  end.

(** Modelled from the spec: one step of [QueryIndex.SetSignedBlock] of the
    missing query index file; for an ack hash among the block's queries,
    adds the block's hash to that ack's set of blocks, creating a
    placeholder ack record when the ack is missing. *)
Definition markAckInBlock (h : Z) (blk : Hash) (qi : QueryIndex) (q : Hash)
  : QueryIndex :=
  let hi := heightIndex qi h in
  let a := default (mkAckRecord None []) (hi_acks hi !! q) in
  let blocks := if bool_decide (blk ∈ ar_blocks a) then ar_blocks a
                else ar_blocks a ++ [blk] in
  <[h := mkHeightIndex (hi_responses hi)
                       (<[q := mkAckRecord (ar_ack a) blocks]> (hi_acks hi))
                       (hi_signedBlocks hi)]> qi.

(** Modelled from the spec: [QueryIndex.SetSignedBlock] marks every ack
    that the block lists. *)
Definition SetSignedBlock (h : Z) (b : Block) (qi : QueryIndex) : QueryIndex :=
  foldl (markAckInBlock h (block_BlockHash b)) qi (Queries b).

(** Modelled from the spec: [QueryIndex.CheckAckFromBlock] of the missing
    query index file; the ack is unknown ([false], no error) when the
    height has no received ack of that hash, and the check fails with
    [ErrMultipleAcksInBlocks] when the ack is already listed in a block
    other than [blk]. *)
Definition CheckAckFromBlock (h : Z) (blk q : Hash) (qi : QueryIndex)
  : bool * err :=
  match hi_acks (heightIndex qi h) !! q with
  | None => (false, None)
  | Some a =>
      if forallb (Hash_IsEqual blk) (ar_blocks a)
      then (bool_decide (is_Some (ar_ack a)), None)
      else (bool_decide (is_Some (ar_ack a)), Some ErrMultipleAcksInBlocks)
  end.

(** Modelled from the spec: [QueryIndex.GetAck] of the missing query index
    file; the ack of that hash at that height, or [ErrAckNotFound]. *)
Definition GetAck (h : Z) (q : Hash) (qi : QueryIndex)
  : option SignedAckHeader * err :=
  match hi_acks (heightIndex qi h) !! q ≫= ar_ack with
  | Some a => (Some a, None)
  | None => (None, Some ErrAckNotFound)
  end.

(** ** The bolt store

    A bucket iterates in the order of [bytes.Compare] on its keys, so it is
    an association list kept sorted by {!bucket_put}. *)

Fixpoint bytes_compare (a b : bytes) : comparison :=
  match a, b with
  | [], [] => Eq
  | [], _ :: _ => Lt
  | _ :: _, [] => Gt
  | x :: a', y :: b' =>
      match x ?= y with
      | Eq => bytes_compare a' b'
      | c => c
      end
  end.

Definition Bucket (V : Type) := list (bytes * V).

Fixpoint bucket_get {V} (k : bytes) (b : Bucket V) : option V :=
  match b with
  | [] => None
  | (k', v) :: b' =>
      match bytes_compare k k' with
      | Eq => Some v
      | _ => bucket_get k b'
      end
  end.

Fixpoint bucket_put {V} (k : bytes) (v : V) (b : Bucket V) : Bucket V :=
  match b with
  | [] => [(k, v)]
  | (k', v') :: b' =>
      match bytes_compare k k' with
      | Lt => (k, v) :: b
      | Eq => (k, v) :: b'
      | Gt => (k', v') :: bucket_put k v b'
      end
  end.

(** The bucket of one height, with the three child buckets that
    [ensureHeight] creates together with it. *)
Record HeightBucket := mkHeightBucket {
  hb_requests : Bucket bytes;
  hb_responses : Bucket bytes;
  hb_acks : Bucket bytes
}.

(** The meta bucket: the state key, the block bucket and the height
    bucket. *)
Record DB := mkDB {
  meta_state : option bytes;
  meta_blocks : Bucket bytes;
  meta_heights : Bucket HeightBucket
}.

Definition emptyDB : DB := mkDB None [] [].

(** The buckets the chain writes keys to, and the buckets it creates. *)
Inductive BucketId :=
| BktMeta
| BktBlockIndex
| BktResponseIndex (hk : bytes)
| BktAckIndex (hk : bytes).

Inductive NewBucketId :=
| NewMeta
| NewBlockIndex
| NewHeightIndex
| NewHeight (hk : bytes)
| NewRequestIndex (hk : bytes)
| NewResponseIndex (hk : bytes)
| NewAckIndex (hk : bytes).

(** ** Collaborators

    What the chain engine calls and does not define: the binary codec and
    the signature checks of [sqlchain/types] and [worker/types], the key
    store, and the ways the bolt store can fail. For each, [inl e] or
    [Some e] is the error it returns. *)
Record Env := mkEnv {
  Block_MarshalBinary : Block -> ExtError + bytes;
  Block_UnmarshalBinary : bytes -> ExtError + Block;
  Response_MarshalBinary : SignedResponseHeader -> ExtError + bytes;
  Response_UnmarshalBinary : bytes -> ExtError + SignedResponseHeader;
  Ack_MarshalBinary : SignedAckHeader -> ExtError + bytes;
  Ack_UnmarshalBinary : bytes -> ExtError + SignedAckHeader;
  Block_Verify : Block -> option ExtError;
  Block_VerifyAsGenesis : Block -> option ExtError;
  SignedHeader_Verify : SignedHeader -> option ExtError;
  SignedHeader_VerifyAsGenesis : SignedHeader -> option ExtError;
  Response_Verify : SignedResponseHeader -> option ExtError;
  Ack_Verify : SignedAckHeader -> option ExtError;
  GetLocalPublicKey : ExtError + Z;
  GetLocalPrivateKey : ExtError + Z;
  PackAndSignBlock : Z -> Block -> Block * option ExtError;
  bolt_Open : option ExtError;
  bolt_Begin : bool -> option ExtError;
  bolt_Put : BucketId -> bytes -> bytes -> option ExtError;
  bolt_CreateBucket : NewBucketId -> option ExtError;
  bolt_Commit : DB -> option ExtError
}.

(** How a call ends: it returns, or it faults (a Go run-time panic). *)
Inductive completion := Normal | Panic.

Inductive outcome (A : Type) :=
| Returns (a : A)
| Panics.
Arguments Returns {A} a.
Arguments Panics {A}.

(** ** Configuration, state and runtime *)

Record Config := mkConfig {
  Genesis : Block;
  Period : Duration;
  TimeResolution : Duration;
  QueryTTL : Z;
  Server_ID : Z
}.

(** Modelled from the spec: [Config.GetHeightFromTime] of the missing
    configuration file; the number of whole periods between the genesis
    timestamp, which is the chain's initial time, and [t], rounded down, as
    an int32. A period of zero has no height here. *)
Definition GetHeightFromTime (cfg : Config) (t : Time) : Z :=
  wrap32 ((t - block_Timestamp (Genesis cfg)) `div` Period cfg).

(** [State] represents a snapshot of current best chain. *)
Record State := mkState {
  st_node : option blockNode;
  Head : Hash;
  Height : Z
}.

(** [State.MarshalBinary]: the head hash followed by the big-endian
    height. Modelled from the spec: the byte layout that the missing
    [utils.WriteElements] produces. Writing to a memory buffer returns no
    error. *)
Definition State_MarshalBinary (s : State) : ExtError + bytes :=
  inr (Head s ++ HeightToKey (Height s)).

(** [State.UnmarshalBinary]: reads 32 bytes of head hash and 4 bytes of
    height into [s], keeping its node; a short buffer is an error. *)
Definition State_UnmarshalBinary (s : State) (b : bytes) : State * err :=
  if bool_decide (length (take 32 b) = 32%nat) then
    match KeyToHeight (drop 32 b) with
    | Some h => (mkState (st_node s) (take 32 b) h, None)
    | None => (mkState (st_node s) (take 32 b) (Height s),
               Some (ErrExt (ExtFailure 0)))
    end
  else (s, Some (ErrExt (ExtFailure 0))).

(** The stop channel is open until it is closed. *)
Inductive chan := ChanOpen | ChanClosed.

(** [Runtime] represents a chain runtime state. The lock that guards the
    fields is not part of the sequential model. *)
Record Runtime := mkRuntime {
  Offset : Duration;
  rt_Period : Duration;
  rt_TimeResolution : Duration;
  ChainInitTime : Time;
  NextTurn : Z;
  pendingBlock : Block;
  stopCh : chan
}.

(** [SetNextTurn] prepares the runtime state for the next turn. *)
Definition SetNextTurn (r : Runtime) : Runtime :=
  mkRuntime (Offset r) (rt_Period r) (rt_TimeResolution r) (ChainInitTime r)
            (add32 (NextTurn r) 1) (pendingBlock r) (stopCh r).

(** [Runtime.Stop] closes the stop channel; closing a closed channel
    faults. *)
Definition Runtime_Stop (r : Runtime) : Runtime * completion :=
  match stopCh r with
  | ChanOpen =>
      (mkRuntime (Offset r) (rt_Period r) (rt_TimeResolution r)
                 (ChainInitTime r) (NextTurn r) (pendingBlock r) ChanClosed,
       Normal)
  | ChanClosed => (r, Panic)
  end.

Definition set_pendingBlock (b : Block) (r : Runtime) : Runtime :=
  mkRuntime (Offset r) (rt_Period r) (rt_TimeResolution r) (ChainInitTime r)
            (NextTurn r) b (stopCh r).

(** ** The chain *)

Record Chain := mkChain {
  cfg : Config;
  db : DB;
  bi : blockIndex;
  qi : QueryIndex;
  rt : Runtime;
  state : State;
  isMyTurn : bool
}.

Definition set_db (d : DB) (c : Chain) : Chain :=
  mkChain (cfg c) d (bi c) (qi c) (rt c) (state c) (isMyTurn c).
Definition set_qi (q : QueryIndex) (c : Chain) : Chain :=
  mkChain (cfg c) (db c) (bi c) q (rt c) (state c) (isMyTurn c).
Definition set_rt (r : Runtime) (c : Chain) : Chain :=
  mkChain (cfg c) (db c) (bi c) (qi c) r (state c) (isMyTurn c).

(** The in-memory state that the mutating operations maintain. *)
Definition memory (c : Chain) : State * blockIndex * QueryIndex :=
  (state c, bi c, qi c).

(** [metaStateKey], the bytes of "thunderdb-state". *)
Definition metaStateKey : bytes :=
  [116; 104; 117; 110; 100; 101; 114; 100; 98; 45; 115; 116; 97; 116; 101].

Section Engine.

Variable E : Env.

(** [db.Update]: begins a writable transaction, runs [fn] on it, and
    commits when [fn] returns no error. The store keeps the writes only
    when the commit succeeds; what [fn] did to the memory of the chain
    stays done in every case. *)
Definition db_Update (c : Chain) (fn : DB -> Chain -> DB * Chain * err)
  : Chain * err :=
  match bolt_Begin E true with
  | Some e => (c, Some (ErrExt e))
  | None =>
      let '(tx, c', r) := fn (db c) c in
      match r with
      | Some e => (c', Some e)
      | None =>
          match bolt_Commit E tx with
          | Some e => (c', Some (ErrExt e))
          | None => (set_db tx c', None)
          end
      end
  end.

(** [Bucket.Put] on the state key, on the block bucket, and on the
    response and ack buckets of a height that {!ensureHeight} has
    prepared. *)
Definition tx_Put (id : BucketId) (k v : bytes) (tx : DB) : DB * err :=
  match bolt_Put E id k v with
  | Some e => (tx, Some (ErrExt e))
  | None =>
      match id with
      | BktMeta => (mkDB (Some v) (meta_blocks tx) (meta_heights tx), None)
      | BktBlockIndex =>
          (mkDB (meta_state tx) (bucket_put k v (meta_blocks tx))
                (meta_heights tx), None)
      | BktResponseIndex hk =>
          let hb := default (mkHeightBucket [] [] [])
                            (bucket_get hk (meta_heights tx)) in
          (mkDB (meta_state tx) (meta_blocks tx)
                (bucket_put hk
                   (mkHeightBucket (hb_requests hb)
                                   (bucket_put k v (hb_responses hb))
                                   (hb_acks hb))
                   (meta_heights tx)), None)
      | BktAckIndex hk =>
          let hb := default (mkHeightBucket [] [] [])
                            (bucket_get hk (meta_heights tx)) in
          (mkDB (meta_state tx) (meta_blocks tx)
                (bucket_put hk
                   (mkHeightBucket (hb_requests hb) (hb_responses hb)
                                   (bucket_put k v (hb_acks hb)))
                   (meta_heights tx)), None)
      end
  end.

(** The first error among the bucket creations [ids], in order. *)
Fixpoint createBuckets (ids : list NewBucketId) : err :=
  match ids with
  | [] => None
  | id :: ids' =>
      match bolt_CreateBucket E id with
      | Some e => Some (ErrExt e)
      | None => createBuckets ids'
      end
  end.

(** [ensureHeight]: the bucket of height key [k], created and initialized
    with its three child buckets when it is new. *)
Definition ensureHeight (tx : DB) (k : bytes) : DB * err :=
  match bucket_get k (meta_heights tx) with
  | Some _ => (tx, None)
  | None =>
      match createBuckets [NewHeight k; NewRequestIndex k;
                           NewResponseIndex k; NewAckIndex k] with
      | Some e => (tx, Some e)
      | None =>
          (mkDB (meta_state tx) (meta_blocks tx)
                (bucket_put k (mkHeightBucket [] [] []) (meta_heights tx)),
           None)
      end
  end.

(** [PushBlock] pushes the signed block header to extend the current main
    chain. *)
Definition PushBlock (c : Chain) (b : Block) : Chain * err :=
  let h := GetHeightFromTime (cfg c) (block_Timestamp b) in
  let node := newBlockNode b (st_node (state c)) in
  let state' := mkState (Some node) (bn_hash node) (bn_height node) in
  match Block_MarshalBinary E b with
  | inl e => (c, Some (ErrExt e))
  | inr encBlock =>
      match State_MarshalBinary state' with
      | inl e => (c, Some (ErrExt e))
      | inr encState =>
          db_Update c (fun tx c =>
            match tx_Put BktMeta metaStateKey encState tx with
            | (tx, Some e) => (tx, c, Some e)
            | (tx, None) =>
                match tx_Put BktBlockIndex (indexKey node) encBlock tx with
                | (tx, Some e) => (tx, c, Some e)
                | (tx, None) =>
                    (tx,
                     mkChain (cfg c) (db c) (AddBlock node (bi c))
                             (SetSignedBlock h b (qi c)) (rt c) state'
                             (isMyTurn c),
                     None)
                end
            end)
      end
  end.

(** [PushResponedQuery] pushes a responsed, signed and verified query into
    the chain. *)
Definition PushResponedQuery (c : Chain) (resp : SignedResponseHeader)
  : Chain * err :=
  let h := GetHeightFromTime (cfg c) (req_Timestamp (Request resp)) in
  let k := HeightToKey h in
  match Response_MarshalBinary E resp with
  | inl e => (c, Some (ErrExt e))
  | inr enc =>
      db_Update c (fun tx c =>
        match ensureHeight tx k with
        | (tx, Some e) => (tx, c, Some e)
        | (tx, None) =>
            match tx_Put (BktResponseIndex k) (resp_HeaderHash resp) enc tx with
            | (tx, Some e) => (tx, c, Some e)
            | (tx, None) =>
                let '(q, r) := AddResponse h resp (qi c) in
                (tx, set_qi q c, r)
            end
        end)
  end.

(** [IsMyTurn] returns whether it's my turn to produce block or not. *)
Definition IsMyTurn (c : Chain) : bool := isMyTurn c.

(** [PushAckedQuery] pushed a acknowledged, signed and verified query into
    the chain. *)
Definition PushAckedQuery (c : Chain) (ack : SignedAckHeader) : Chain * err :=
  let h := GetHeightFromTime (cfg c)
             (resp_Timestamp (ack_SignedResponseHeader ack)) in
  let k := HeightToKey h in
  match Ack_MarshalBinary E ack with
  | inl e => (c, Some (ErrExt e))
  | inr enc =>
      db_Update c (fun tx c =>
        match ensureHeight tx k with
        | (tx, Some e) => (tx, c, Some e)
        | (tx, None) =>
            let '(tx, r) :=
              tx_Put (BktAckIndex k) (ack_HeaderHash ack) enc tx in
            if bool_decide
                 (r ≠ None ∧ r ≠ Some (ErrExt BoltErrIncompatibleValue))
            then (tx, c, r)
            else
              match AddAck h ack (qi c) with
              | (q, Some e) => (tx, set_qi q c, Some e)
              | (q, None) =>
                  let c := set_qi q c in
                  (tx,
                   if IsMyTurn c
                   then set_rt (set_pendingBlock
                                  (Block_PushAckedQuery (ack_HeaderHash ack)
                                     (pendingBlock (rt c))) (rt c)) c
                   else c,
                   None)
              end
        end)
  end.

(** The query check of [CheckAndPushNewBlock]: the first error that
    [CheckAckFromBlock] reports for the acks the block lists; an ack that
    is not known locally is passed over. *)
Fixpoint checkQueries (c : Chain) (h : Z) (blk : Hash) (qs : list Hash) : err :=
  match qs with
  | [] => None
  | q :: qs' =>
      match CheckAckFromBlock h blk q (qi c) with
      | (_, Some e) => Some e
      | (_, None) => checkQueries c h blk qs'
      end
  end.

(** [CheckAndPushNewBlock] implements ChainRPCServer.CheckAndPushNewBlock. *)
Definition CheckAndPushNewBlock (c : Chain) (block : Block) : Chain * err :=
  if negb (Hash_IsEqual (block_ParentHash block) (Head (state c)))
  then (c, Some ErrInvalidBlock)
  else if HasBlock (bi c) (block_BlockHash block)
  then (c, Some ErrBlockExists)
  else
    let h := GetHeightFromTime (cfg c) (block_Timestamp block) in
    if negb (h =? add32 (Height (state c)) 1)
    then (c, Some ErrBlockTimestampOutOfPeriod)
    else
      match checkQueries c h (block_BlockHash block) (Queries block) with
      | Some e => (c, Some e)
      | None =>
          match Block_Verify E block with
          | Some e => (c, Some (ErrExt e))
          | None => PushBlock c block
          end
      end.

(** [queryTimeIsExpired]: the height of [t] is below
    [NextTurn - QueryTTL], computed on int32. *)
Definition queryTimeIsExpired (c : Chain) (t : Time) : bool :=
  GetHeightFromTime (cfg c) t <? sub32 (NextTurn (rt c)) (QueryTTL (cfg c)).

(** [VerifyAndPushResponsedQuery] verifies a responsed and signed query,
    and pushed it if valid. *)
Definition VerifyAndPushResponsedQuery (c : Chain) (resp : SignedResponseHeader)
  : Chain * err :=
  if queryTimeIsExpired c (resp_Timestamp resp)
  then (c, Some ErrQueryExpired)
  else
    match Response_Verify E resp with
    | Some e => (c, Some (ErrExt e))
    | None => PushResponedQuery c resp
    end.

(** [VerifyAndPushAckedQuery] verifies a acknowledged and signed query, and
    pushed it if valid. *)
Definition VerifyAndPushAckedQuery (c : Chain) (ack : SignedAckHeader)
  : Chain * err :=
  if queryTimeIsExpired c (resp_Timestamp (ack_SignedResponseHeader ack))
  then (c, Some ErrQueryExpired)
  else
    match Ack_Verify E ack with
    | Some e => (c, Some (ErrExt e))
    | None => PushAckedQuery c ack
    end.

(** [ProduceBlock] prepares, signs and advises the pending block to the
    orther peers. *)
Definition ProduceBlock (c : Chain) (parent : Hash) (now : Time) : Chain * err :=
  match GetLocalPrivateKey E with
  | inl e => (c, Some (ErrExt e))
  | inr priv =>
      let pending :=
        set_ParentHash parent
          (set_Timestamp now
             (set_ParentHash (Head (state c)) (pendingBlock (rt c)))) in
      let '(pending, r) := PackAndSignBlock E priv pending in
      let c := set_rt (set_pendingBlock pending (rt c)) c in
      match r with
      | Some e => (c, Some (ErrExt e))
      | None => PushBlock c pending
      end
  end.

(** [Chain.Stop] stops the main process of the sql-chain. *)
Definition Stop (c : Chain) : Chain * completion :=
  let '(r, k) := Runtime_Stop (rt c) in (set_rt r c, k).

(** [RunCurrentTurn] does the check and runs block producing if its my
    turn. The deferred [SetNextTurn] runs when the body returns and when it
    faults. *)
Definition RunCurrentTurn (c : Chain) (now : Time) : Chain * completion :=
  let '(c, k) :=
    if negb (IsMyTurn c) then (c, Normal)
    else
      match ProduceBlock c (Head (state c)) now with
      | (c, Some _) => Stop c
      | (c, None) => (c, Normal)
      end in
  (set_rt (SetNextTurn (rt c)) c, k).

(** Modelled from the spec: [Block.UnmarshalBinary] of the missing
    [sqlchain/types] package decodes into the block its receiver points
    to, and faults on a nil receiver. *)
Definition Block_UnmarshalBinary_into (recv : option Block) (v : bytes)
  : outcome (option Block * err) :=
  match recv with
  | None => Panics
  | Some b =>
      match Block_UnmarshalBinary E v with
      | inl e => Returns (Some b, Some (ErrExt e))
      | inr b' => Returns (Some b', None)
      end
  end.

(** [FetchBlock] fetches the block at specified height from local cache.
    The result [b] is nil when the decoder is called on it. *)
Definition FetchBlock (c : Chain) (height : Z) : outcome (option Block * err) :=
  let b : option Block := None in
  match ancestor (st_node (state c)) height with
  | Some n =>
      let k := indexKey n in
      match bolt_Begin E false with
      | Some e => Returns (b, Some (ErrExt e))
      | None =>
          let v := default [] (bucket_get k (meta_blocks (db c))) in
          Block_UnmarshalBinary_into b v
      end
  | None => Returns (b, None)
  end.

(** [FetchAckedQuery] fetches the acknowledged query from local cache. *)
Definition FetchAckedQuery (c : Chain) (height : Z) (header : Hash)
  : option SignedAckHeader * err :=
  GetAck height header (qi c).

(** The zero values of [time.Time] and [hash.Hash]. *)
Definition zeroTime : Time := 0.
Definition zeroHash : Hash := replicate 32 0.

(** The runtime that [NewChain] and [LoadChain] start from; the pending
    block names the local server as producer and the genesis block as both
    genesis and parent. *)
Definition newRuntime (cfg : Config) (pub : Z) (init : Time) : Runtime :=
  mkRuntime 0 (Period cfg) (TimeResolution cfg) init 1
    (mkBlock
       (mkSignedHeader
          (mkHeader 16777216 (Server_ID cfg)
                    (block_BlockHash (Genesis cfg))
                    (block_BlockHash (Genesis cfg)) zeroTime)
          zeroHash pub 0)
       [])
    ChanOpen.

(** [NewChain] creates a new sql-chain struct on the store file [file]. *)
Definition NewChain (cfg : Config) (file : DB) : option Chain * err :=
  match Block_VerifyAsGenesis E (Genesis cfg) with
  | Some e => (None, Some (ErrExt e))
  | None =>
  match bolt_Open E with
  | Some e => (None, Some (ErrExt e))
  | None =>
  match bolt_Begin E true with
  | Some e => (None, Some (ErrExt e))
  | None =>
  match createBuckets [NewMeta; NewBlockIndex; NewHeightIndex] with
  | Some e => (None, Some e)
  | None =>
  match bolt_Commit E file with
  | Some e => (None, Some (ErrExt e))
  | None =>
  match GetLocalPublicKey E with
  | inl e => (None, Some (ErrExt e))
  | inr pub =>
      let chain :=
        mkChain cfg file newBlockIndex NewQueryIndex
          (newRuntime cfg pub (block_Timestamp (Genesis cfg)))
          (mkState None (GenesisHash (sh_Header (b_SignedHeader (Genesis cfg))))
                   (-1))
          false in
      match PushBlock chain (Genesis cfg) with
      | (_, Some e) => (None, Some e)
      | (chain, None) => (Some chain, None)
      end
  end end end end end end.

(** The block loop of [LoadChain]: decodes each stored block in key order
    and gives it a parent: none for the first block, the preceding block
    when the parent hash names it, and otherwise the node that the block
    index of the chain holds for the block's hash. *)
Fixpoint loadBlocks (chain : Chain) (last : option blockNode)
    (kvs : Bucket bytes) : err :=
  match kvs with
  | [] => None
  | (_, v) :: kvs' =>
      match Block_UnmarshalBinary E v with
      | inl e => Some (ErrExt e)
      | inr block =>
          let parent : Error + option blockNode :=
            match last with
            | None =>
                match SignedHeader_VerifyAsGenesis E (b_SignedHeader block) with
                | Some e => inl (ErrExt e)
                | None => inr None
                end
            | Some l =>
                if Hash_IsEqual (block_ParentHash block) (bn_hash l) then
                  match SignedHeader_Verify E (b_SignedHeader block) with
                  | Some e => inl (ErrExt e)
                  | None => inr (Some l)
                  end
                else
                  match LookupNode (bi chain) (block_BlockHash block) with
                  | None => inl ErrParentNotFound
                  | Some p => inr (Some p)
                  end
            end in
          match parent with
          | inl e => Some e
          | inr parent =>
              loadBlocks chain (Some (initBlockNode block parent)) kvs'
          end
      end
  end.

(** The response and ack loops of [LoadChain] for one height. The loops
    decode every entry into one response and one ack object; the query
    index is taken to keep the values it is given, so that the entries do
    not share them. *)
Fixpoint loadResponses (h : Z) (kvs : Bucket bytes) (q : QueryIndex)
  : QueryIndex * err :=
  match kvs with
  | [] => (q, None)
  | (_, v) :: kvs' =>
      match Response_UnmarshalBinary E v with
      | inl e => (q, Some (ErrExt e))
      | inr resp =>
          match AddResponse h resp q with
          | (q, Some e) => (q, Some e)
          | (q, None) => loadResponses h kvs' q
          end
      end
  end.

Fixpoint loadAcks (h : Z) (kvs : Bucket bytes) (q : QueryIndex)
  : QueryIndex * err :=
  match kvs with
  | [] => (q, None)
  | (_, v) :: kvs' =>
      match Ack_UnmarshalBinary E v with
      | inl e => (q, Some (ErrExt e))
      | inr ack =>
          match AddAck h ack q with
          | (q, Some e) => (q, Some e)
          | (q, None) => loadAcks h kvs' q
          end
      end
  end.

(** The height loop of [LoadChain]; a height key shorter than four bytes
    faults in [KeyToHeight]. *)
Fixpoint loadHeights (hs : Bucket HeightBucket) (q : QueryIndex)
  : outcome (QueryIndex * err) :=
  match hs with
  | [] => Returns (q, None)
  | (k, hb) :: hs' =>
      match KeyToHeight k with
      | None => Panics
      | Some h =>
          match loadResponses h (hb_responses hb) q with
          | (q, Some e) => Returns (q, Some e)
          | (q, None) =>
              match loadAcks h (hb_acks hb) q with
              | (q, Some e) => Returns (q, Some e)
              | (q, None) => loadHeights hs' q
              end
          end
      end
  end.

(** [LoadChain] loads the chain state from the specified database and
    rebuilds a memory index. *)
Definition LoadChain (cfg : Config) (file : DB) : outcome (option Chain * err) :=
  match bolt_Open E with
  | Some e => Returns (None, Some (ErrExt e))
  | None =>
  match GetLocalPublicKey E with
  | inl e => Returns (None, Some (ErrExt e))
  | inr pub =>
      let chain :=
        mkChain cfg file newBlockIndex NewQueryIndex
          (newRuntime cfg pub zeroTime) (mkState None zeroHash 0) false in
      match bolt_Begin E false with
      | Some e => Returns (Some chain, Some (ErrExt e))
      | None =>
          let '(s, r) := State_UnmarshalBinary (state chain)
                           (default [] (meta_state file)) in
          let chain := mkChain cfg file (bi chain) (qi chain) (rt chain) s
                               false in
          match r with
          | Some e => Returns (Some chain, Some e)
          | None =>
              match loadBlocks chain None (meta_blocks file) with
              | Some e => Returns (Some chain, Some e)
              | None =>
                  match loadHeights (meta_heights file) (qi chain) with
                  | Panics => Panics
                  | Returns (q, r) => Returns (Some (set_qi q chain), r)
                  end
              end
          end
      end
  end end.

End Engine.

(** ** The load path as the specification words it

    The block loop of [load_chain] in the words of the specification: the
    first block is verified as genesis; a block whose parent hash is the
    hash of the preceding block takes it as parent; any other block takes
    the node that the index built so far holds for its parent hash, and the
    load fails with [ErrParentNotFound] when there is none; every node is
    inserted into the index. *)
Fixpoint loadBlocks_spec (E : Env) (index : blockIndex)
    (last : option blockNode) (kvs : Bucket bytes) : blockIndex * err :=
  match kvs with
  | [] => (index, None)
  | (_, v) :: kvs' =>
      match Block_UnmarshalBinary E v with
      | inl e => (index, Some (ErrExt e))
      | inr block =>
          let parent : Error + option blockNode :=
            match last with
            | None =>
                match SignedHeader_VerifyAsGenesis E (b_SignedHeader block) with
                | Some e => inl (ErrExt e)
                | None => inr None
                end
            | Some l =>
                if Hash_IsEqual (block_ParentHash block) (bn_hash l) then
                  match SignedHeader_Verify E (b_SignedHeader block) with
                  | Some e => inl (ErrExt e)
                  | None => inr (Some l)
                  end
                else
                  match LookupNode index (block_ParentHash block) with
                  | None => inl ErrParentNotFound
                  | Some p => inr (Some p)
                  end
            end in
          match parent with
          | inl e => (index, Some e)
          | inr parent =>
              let node := initBlockNode block parent in
              loadBlocks_spec E (AddBlock node index) (Some node) kvs'
          end
      end
  end.

(** ** The mutating operations as one family *)



(** ** A reference environment

    A fixed-width big-endian codec, signature checks that accept, a key
    store that answers, and a store that does not fail. The scenarios
    below run the engine in it, or in a variant with one failure. *)

Fixpoint be_bytes (n : nat) (z : Z) : bytes :=
  match n with
  | O => []
  | S n' => be_bytes n' (z `div` 256) ++ [z `mod` 256]
  end.

Fixpoint be_value (b : bytes) (acc : Z) : Z :=
  match b with
  | [] => acc
  | x :: b' => be_value b' (acc * 256 + x)
  end.

Definition slice (v : bytes) (off len : nat) : bytes := take len (drop off v).

Fixpoint chunks32 (fuel : nat) (b : bytes) : list Hash :=
  match fuel, b with
  | O, _ | _, [] => []
  | S fuel', _ => take 32 b :: chunks32 fuel' (drop 32 b)
  end.

Definition ref_Block_MarshalBinary (b : Block) : ExtError + bytes :=
  let sh := b_SignedHeader b in
  let h := sh_Header sh in
  inr (GenesisHash h ++ ParentHash h ++ BlockHash sh
       ++ be_bytes 4 (Version h) ++ be_bytes 8 (Producer h)
       ++ be_bytes 8 (Timestamp h) ++ be_bytes 8 (Signee sh)
       ++ be_bytes 8 (Signature sh) ++ concat (Queries b)).

Definition ref_Block_UnmarshalBinary (v : bytes) : ExtError + Block :=
  if bool_decide (length v < 132)%nat then inl (ExtFailure 1)
  else
    inr (mkBlock
           (mkSignedHeader
              (mkHeader (be_value (slice v 96 4) 0)
                        (be_value (slice v 100 8) 0)
                        (slice v 0 32) (slice v 32 32)
                        (be_value (slice v 108 8) 0))
              (slice v 64 32) (be_value (slice v 116 8) 0)
              (be_value (slice v 124 8) 0))
           (chunks32 (length v) (slice v 132 (length v)))).

Definition ref_Response_MarshalBinary (r : SignedResponseHeader)
  : ExtError + bytes :=
  inr (be_bytes 8 (req_Timestamp (Request r)) ++ req_HeaderHash (Request r)
       ++ be_bytes 8 (resp_Timestamp r) ++ resp_HeaderHash r).

Definition decodeResponse (v : bytes) : SignedResponseHeader :=
  mkResponse (mkRequest (be_value (slice v 0 8) 0) (slice v 8 32))
             (be_value (slice v 40 8) 0) (slice v 48 32).

Definition ref_Response_UnmarshalBinary (v : bytes)
  : ExtError + SignedResponseHeader :=
  if bool_decide (length v < 80)%nat then inl (ExtFailure 1)
  else inr (decodeResponse v).

Definition ref_Ack_MarshalBinary (a : SignedAckHeader) : ExtError + bytes :=
  match ref_Response_MarshalBinary (ack_Response a) with
  | inl e => inl e
  | inr r => inr (r ++ be_bytes 8 (ack_Timestamp a) ++ ack_HeaderHash a)
  end.

Definition ref_Ack_UnmarshalBinary (v : bytes) : ExtError + SignedAckHeader :=
  if bool_decide (length v < 120)%nat then inl (ExtFailure 1)
  else inr (mkAck (decodeResponse v) (be_value (slice v 80 8) 0)
                  (slice v 88 32)).

(** The reference signer stamps the block with a hash made of its
    timestamp and signs with the key. *)
Definition ref_PackAndSignBlock (priv : Z) (b : Block)
  : Block * option ExtError :=
  let sh := b_SignedHeader b in
  (mkBlock (mkSignedHeader (sh_Header sh)
                           (be_bytes 32 (Timestamp (sh_Header sh) + 1))
                           (Signee sh) priv)
           (Queries b), None).

Definition refEnv : Env :=
  mkEnv ref_Block_MarshalBinary ref_Block_UnmarshalBinary
        ref_Response_MarshalBinary ref_Response_UnmarshalBinary
        ref_Ack_MarshalBinary ref_Ack_UnmarshalBinary
        (fun _ => None) (fun _ => None) (fun _ => None) (fun _ => None)
        (fun _ => None) (fun _ => None)
        (inr 7) (inr 9) ref_PackAndSignBlock
        None (fun _ => None) (fun _ _ _ => None) (fun _ => None)
        (fun _ => None).


Definition with_PackAndSignBlock (f : Z -> Block -> Block * option ExtError)
    (E : Env) : Env :=
  mkEnv (Block_MarshalBinary E) (Block_UnmarshalBinary E)
        (Response_MarshalBinary E) (Response_UnmarshalBinary E)
        (Ack_MarshalBinary E) (Ack_UnmarshalBinary E)
        (Block_Verify E) (Block_VerifyAsGenesis E) (SignedHeader_Verify E)
        (SignedHeader_VerifyAsGenesis E) (Response_Verify E) (Ack_Verify E)
        (GetLocalPublicKey E) (GetLocalPrivateKey E) f
        (bolt_Open E) (bolt_Begin E) (bolt_Put E) (bolt_CreateBucket E)
        (bolt_Commit E).

Definition with_Put (f : BucketId -> bytes -> bytes -> option ExtError)
    (E : Env) : Env :=
  mkEnv (Block_MarshalBinary E) (Block_UnmarshalBinary E)
        (Response_MarshalBinary E) (Response_UnmarshalBinary E)
        (Ack_MarshalBinary E) (Ack_UnmarshalBinary E)
        (Block_Verify E) (Block_VerifyAsGenesis E) (SignedHeader_Verify E)
        (SignedHeader_VerifyAsGenesis E) (Response_Verify E) (Ack_Verify E)
        (GetLocalPublicKey E) (GetLocalPrivateKey E) (PackAndSignBlock E)
        (bolt_Open E) (bolt_Begin E) f (bolt_CreateBucket E) (bolt_Commit E).

Definition signFailsEnv : Env :=
  with_PackAndSignBlock (fun _ b => (b, Some (ExtFailure 3))) refEnv.

(** ** Scenario data

    A chain with period 10 whose genesis block [G] carries timestamp 0;
    [B1] and [B2] follow at timestamps 10 and 20. *)

Definition hashOf (n : Z) : Hash := be_bytes 32 n.

Definition blockAt (self parent : Z) (t : Time) : Block :=
  mkBlock
    (mkSignedHeader (mkHeader 16777216 1 (hashOf 100) (hashOf parent) t)
                    (hashOf self) 7 9)
    [].

Definition G : Block := blockAt 100 100 0.
Definition B1 : Block := blockAt 101 100 10.
Definition B2 : Block := blockAt 102 101 20.

Definition cfg0 : Config := mkConfig G 10 1 1 1.

Definition set_isMyTurn (t : bool) (c : Chain) : Chain :=
  mkChain (cfg c) (db c) (bi c) (qi c) (rt c) (state c) t.

Definition set_NextTurn (n : Z) (c : Chain) : Chain :=
  set_rt (mkRuntime (Offset (rt c)) (rt_Period (rt c))
                    (rt_TimeResolution (rt c)) (ChainInitTime (rt c)) n
                    (pendingBlock (rt c)) (stopCh (rt c))) c.

(** The chain as [NewChain] builds it before it pushes the genesis block,
    and after. *)
Definition chain0 : Chain :=
  mkChain cfg0 emptyDB newBlockIndex NewQueryIndex (newRuntime cfg0 7 0)
          (mkState None (hashOf 100) (-1)) false.

Definition chainG : Chain := (PushBlock refEnv chain0 G).1.

(** The chain after [B1] and [B2] have extended the genesis block. *)
Definition chainB2 : Chain :=
  (PushBlock refEnv (PushBlock refEnv chainG B1).1 B2).1.

(** A response [R] to a request made in period 1 and answered in period
    2, and two acks of it. *)
Definition R : SignedResponseHeader :=
  mkResponse (mkRequest 15 (hashOf 200)) 25 (hashOf 201).
Definition A1 : SignedAckHeader := mkAck R 26 (hashOf 202).
Definition A2 : SignedAckHeader := mkAck R 27 (hashOf 203).

(** The chain after the response and its first ack have been pushed. *)
Definition chainA1 : Chain :=
  (PushAckedQuery refEnv (PushResponedQuery refEnv chainB2 R).1 A1).1.

(** A block that names the genesis block as its parent although [B1] is
    the head, and the chain after it has been pushed onto [B1]. *)
Definition B2' : Block := blockAt 102 100 20.

Definition chainFork : Chain :=
  (PushBlock refEnv (PushBlock refEnv chainG B1).1 B2').1.

(** The chain at the last turn an int32 can count, when the turn is this
    node's. *)
Definition chainLastTurn : Chain :=
  set_isMyTurn true (set_NextTurn 2147483647 chainG).

(** The clock fields of the runtime. *)
Definition clock (r : Runtime) : Duration * Duration * Duration * Time :=
  (Offset r, rt_Period r, rt_TimeResolution r, ChainInitTime r).

(** ** The coordinated clock

    An instant is the count of nanoseconds that [Time] holds and a span is
    an int64. What [time.Now()] reads on the local clock is the argument
    [local] of the functions that call it. *)

Definition minDuration : Duration := -9223372036854775808.
Definition maxDuration : Duration := 9223372036854775807.

Definition is_int64 (d : Z) : Prop := minDuration <= d <= maxDuration.

(** Reduction of a mathematical integer to the int64 the hardware keeps. *)
Definition wrap64 (z : Z) : Z :=
  let u := z mod 18446744073709551616 in
  if u <? 9223372036854775808 then u else u - 18446744073709551616.

(** [Time.Sub]: the span [t - u], or the nearest span there is when the
    difference is not an int64. *)
Definition Time_Sub (t u : Time) : Duration :=
  if t - u <? minDuration then minDuration
  else if maxDuration <? t - u then maxDuration
  else t - u.

(** [Time.Add]. *)
Definition Time_Add (t : Time) (d : Duration) : Time := t + d.

(** [UpdateTime] updates the current coodinated chain time. *)
Definition UpdateTime (r : Runtime) (now local : Time) : Runtime :=
  mkRuntime (Time_Sub now local) (rt_Period r) (rt_TimeResolution r)
            (ChainInitTime r) (NextTurn r) (pendingBlock r) (stopCh r).

(** [Now] returns the current coodinated chain time. *)
Definition Now (r : Runtime) (local : Time) : Time :=
  Time_Add local (Offset r).

(** [TillNextTurn] returns the current time reading and the duration till
    the next turn, which is at most the time resolution. *)
Definition TillNextTurn (r : Runtime) (local : Time) : Time * Duration :=
  let t := Now r local in
  let d := Time_Sub
             (Time_Add (ChainInitTime r) (wrap64 (NextTurn r * rt_Period r)))
             t in
  (t, if rt_TimeResolution r <? d then rt_TimeResolution r else d).

(** ** The producing cycle *)

(** [Sync] synchronizes blocks and queries from the other peers. *)
Definition Sync (c : Chain) : err := None.

(** [BlockProducingCycle] runs a constantly check for a short time
    resolution. Each round first looks at the stop channel, then reads the
    local clock: [readings] are the readings of the rounds to come, and
    [None] is a cycle that is still running when they are used up. A round
    with time left sleeps; the others run the current turn. *)
Fixpoint BlockProducingCycle (E : Env) (readings : list Time) (c : Chain)
  : option (Chain * completion) :=
  match stopCh (rt c) with
  | ChanClosed => Some (c, Normal)
  | ChanOpen =>
      match readings with
      | [] => None
      | local :: readings' =>
          let '(t, d) := TillNextTurn (rt c) local in
          if 0 <? d then BlockProducingCycle E readings' c
          else
            match RunCurrentTurn E c t with
            | (c', Normal) => BlockProducingCycle E readings' c'
            | (c', Panic) => Some (c', Panic)
            end
      end
  end.

(** [Start] starts the main process of the sql-chain. *)
Definition Start (E : Env) (readings : list Time) (c : Chain)
  : option (Chain * completion * err) :=
  match Sync c with
  | Some e => Some (c, Normal, Some e)
  | None =>
      match BlockProducingCycle E readings c with
      | Some (c', k) => Some (c', k, None)
      | None => None
      end
  end.

(** ** Calls on a chain

    The methods that change a chain, as one family, and the chain that a
    sequence of calls leaves whatever each call returns. *)

Inductive Call :=
| CallPushBlock (b : Block)
| CallCheckAndPushNewBlock (b : Block)
| CallPushResponedQuery (resp : SignedResponseHeader)
| CallPushAckedQuery (ack : SignedAckHeader)
| CallVerifyAndPushResponsedQuery (resp : SignedResponseHeader)
| CallVerifyAndPushAckedQuery (ack : SignedAckHeader)
| CallProduceBlock (parent : Hash) (now : Time)
| CallRunCurrentTurn (now : Time)
| CallStop
| CallUpdateTime (now local : Time).

Definition call (E : Env) (c : Chain) (k : Call) : Chain :=
  match k with
  | CallPushBlock b => (PushBlock E c b).1
  | CallCheckAndPushNewBlock b => (CheckAndPushNewBlock E c b).1
  | CallPushResponedQuery resp => (PushResponedQuery E c resp).1
  | CallPushAckedQuery ack => (PushAckedQuery E c ack).1
  | CallVerifyAndPushResponsedQuery resp =>
      (VerifyAndPushResponsedQuery E c resp).1
  | CallVerifyAndPushAckedQuery ack => (VerifyAndPushAckedQuery E c ack).1
  | CallProduceBlock parent now => (ProduceBlock E c parent now).1
  | CallRunCurrentTurn now => (RunCurrentTurn E c now).1
  | CallStop => (Stop c).1
  | CallUpdateTime now local => set_rt (UpdateTime (rt c) now local) c
  end.

Definition calls (E : Env) (c : Chain) (ks : list Call) : Chain :=
  foldl (call E) c ks.

(** The tip of the chain is coherent: the state names a node by its hash
    and height, and the block index holds that node under the head. *)
Definition tip_coherent (c : Chain) : Prop :=
  ∃ n, st_node (state c) = Some n
       ∧ Head (state c) = bn_hash n
       ∧ Height (state c) = bn_height n
       ∧ LookupNode (bi c) (Head (state c)) = Some n.

(** The keys of a bucket. *)
Definition bucket_has {V} (k : bytes) (b : Bucket V) : Prop :=
  is_Some (bucket_get k b).

(** The reference environment with a store that takes every write for an
    incompatible value, and with a verification that rejects responses and
    acks. *)
Definition incompatibleEnv : Env :=
  with_Put (fun _ _ _ => Some BoltErrIncompatibleValue) refEnv.

(** One bucket has every key of another, and one store has every key of
    another: the state key, the block keys, the heights and, under each
    height, the request, response and ack keys. *)
Definition bucket_le {V} (b b' : Bucket V) : Prop :=
  ∀ k, bucket_has k b -> bucket_has k b'.

Definition store_le (d d' : DB) : Prop :=
  (is_Some (meta_state d) -> is_Some (meta_state d'))
  ∧ bucket_le (meta_blocks d) (meta_blocks d')
  ∧ ∀ k hb, bucket_get k (meta_heights d) = Some hb ->
      ∃ hb', bucket_get k (meta_heights d') = Some hb'
             ∧ bucket_le (hb_requests hb) (hb_requests hb')
             ∧ bucket_le (hb_responses hb) (hb_responses hb')
             ∧ bucket_le (hb_acks hb) (hb_acks hb').

(** What a call may do to a chain: the configuration and the turn flag
    stay, the store and the block index keep their keys, and a coherent
    tip stays coherent. *)
Definition extends (c c' : Chain) : Prop :=
  cfg c' = cfg c
  ∧ isMyTurn c' = isMyTurn c
  ∧ store_le (db c) (db c')
  ∧ (∀ h, HasBlock (bi c) h = true -> HasBlock (bi c') h = true)
  ∧ (tip_coherent c -> tip_coherent c').

(** * Properties *)

(** ** Machine arithmetic *)

Lemma lor_shiftl_low (a b n : Z) :
  0 <= n -> 0 <= a < 2 ^ n -> Z.lor a (Z.shiftl b n) = a + b * 2 ^ n.
Proof.
  intros Hn Ha.
  rewrite <- Z.shiftl_mul_pow2 by lia.
  symmetry. apply Z.add_nocarry_lor.
  apply Z.bits_inj'. intros i Hi.
  rewrite Z.land_spec, Z.bits_0.
  destruct (Z.lt_ge_cases i n) as [Hlt|Hge].
  - rewrite Z.shiftl_spec_low by lia. apply andb_false_r.
  - assert (Z.testbit a i = false) as ->; [|reflexivity].
    destruct (Z.eq_dec a 0) as [->|Hne]; [apply Z.bits_0|].
    apply Z.bits_above_log2; [lia|].
    assert (Z.log2 a < n); [|lia].
    apply Z.log2_lt_pow2; lia.
Qed.

Lemma to_byte_shiftr (v k : Z) :
  0 <= k -> to_byte (Z.shiftr v k) = (v / 2 ^ k) mod 256.
Proof.
  intros Hk. unfold to_byte. change 255 with (Z.ones 8).
  rewrite Z.land_ones by lia. rewrite Z.shiftr_div_pow2 by lia. reflexivity.
Qed.

(** The four bytes that [PutUint32] writes are the base-256 digits of the
    value, most significant first. *)
Lemma PutUint32_digits (v : Z) :
  PutUint32 v =
  [ (v / 16777216) mod 256; (v / 65536) mod 256; (v / 256) mod 256; v mod 256 ].
Proof.
  unfold PutUint32.
  rewrite !to_byte_shiftr by lia.
  replace v with (Z.shiftr v 0) at 4 by apply Z.shiftr_0_r.
  rewrite to_byte_shiftr by lia.
  change (2 ^ 24) with 16777216. change (2 ^ 16) with 65536.
  change (2 ^ 8) with 256. change (2 ^ 0) with 1.
  rewrite Z.div_1_r. reflexivity.
Qed.

Lemma Uint32_sum (b0 b1 b2 b3 : Z) (rest : bytes) :
  is_byte b3 -> is_byte b2 -> is_byte b1 ->
  Uint32 (b0 :: b1 :: b2 :: b3 :: rest) =
  Some (b3 + b2 * 256 + b1 * 65536 + b0 * 16777216).
Proof.
  unfold is_byte, Uint32. intros H3 H2 H1. f_equal.
  rewrite (lor_shiftl_low b3 b2 8) by lia.
  rewrite (lor_shiftl_low _ b1 16) by lia.
  rewrite (lor_shiftl_low _ b0 24) by lia.
  reflexivity.
Qed.

Lemma to_int32_to_uint32 (h : Z) : is_int32 h -> to_int32 (to_uint32 h) = h.
Proof.
  unfold is_int32, to_int32, to_uint32. intros Hh.
  destruct (Z.ltb_spec (h mod 4294967296) 2147483648);
    Z.div_mod_to_equations; lia.
Qed.

Lemma to_uint32_to_int32 (u : Z) : is_uint32 u -> to_uint32 (to_int32 u) = u.
Proof.
  unfold is_uint32, to_int32, to_uint32. intros Hu.
  destruct (Z.ltb_spec u 2147483648); Z.div_mod_to_equations; lia.
Qed.

Lemma to_int32_range (u : Z) : is_uint32 u -> is_int32 (to_int32 u).
Proof.
  unfold is_uint32, is_int32, to_int32. intros Hu.
  destruct (Z.ltb_spec u 2147483648); lia.
Qed.

Lemma to_uint32_range (h : Z) : is_uint32 (to_uint32 h).
Proof. unfold is_uint32, to_uint32. apply Z.mod_pos_bound. lia. Qed.

Lemma wrap32_id (h : Z) : is_int32 h -> wrap32 h = h.
Proof. apply to_int32_to_uint32. Qed.

Lemma wrap32_range (z : Z) : is_int32 (wrap32 z).
Proof. apply to_int32_range, to_uint32_range. Qed.

(** Away from the top of the range, [++] on an int32 adds one. *)
Lemma add32_succ (n : Z) :
  -2147483648 <= n < 2147483647 -> add32 n 1 = n + 1.
Proof. intros Hn. apply wrap32_id. unfold is_int32. lia. Qed.

(** When the difference fits an int32, [-] on int32 is subtraction. *)
Lemma sub32_exact (a b : Z) : is_int32 (a - b) -> sub32 a b = a - b.
Proof. apply wrap32_id. Qed.

Lemma digits_sum (u : Z) :
  is_uint32 u ->
  u mod 256 + (u / 256) mod 256 * 256 + (u / 65536) mod 256 * 65536
  + (u / 16777216) mod 256 * 16777216 = u.
Proof. unfold is_uint32. intros Hu. Z.div_mod_to_equations. lia. Qed.

(** ** Height keys *)

Lemma HeightToKey_bytes (h : Z) : Forall is_byte (HeightToKey h).
Proof.
  unfold HeightToKey. rewrite PutUint32_digits.
  repeat constructor; apply Z.mod_pos_bound; lia.
Qed.

Lemma KeyToHeight_HeightToKey (h : Z) :
  is_int32 h -> KeyToHeight (HeightToKey h) = Some h.
Proof.
  intros Hh. unfold KeyToHeight, HeightToKey.
  rewrite PutUint32_digits.
  rewrite Uint32_sum by (unfold is_byte; apply Z.mod_pos_bound; lia).
  cbn. f_equal.
  rewrite digits_sum by apply to_uint32_range.
  by apply to_int32_to_uint32.
Qed.

Lemma HeightToKey_KeyToHeight (k : bytes) :
  length k = 4%nat -> Forall is_byte k ->
  ∃ h, is_int32 h ∧ KeyToHeight k = Some h ∧ HeightToKey h = k.
Proof.
  intros Hlen Hb.
  destruct k as [|b0 [|b1 [|b2 [|b3 [|]]]]]; try discriminate.
  apply Forall_cons in Hb as [H0 Hb]. apply Forall_cons in Hb as [H1 Hb].
  apply Forall_cons in Hb as [H2 Hb]. apply Forall_cons in Hb as [H3 _].
  set (u := b3 + b2 * 256 + b1 * 65536 + b0 * 16777216).
  assert (Hu : is_uint32 u) by (unfold is_uint32, is_byte in *; lia).
  exists (to_int32 u). split; [by apply to_int32_range|]. split.
  - unfold KeyToHeight. rewrite Uint32_sum by done. reflexivity.
  - unfold HeightToKey. rewrite to_uint32_to_int32 by done.
    rewrite PutUint32_digits. unfold u, is_byte in *.
    repeat f_equal; Z.div_mod_to_equations; lia.
Qed.

(** C10. For every int32 height [h], negative ones included, decoding the
    key of [h] gives [h] back; the key is exactly four bytes, the base-256
    digits of [uint32(h)] with the most significant first; two heights
    with the same key are equal, and every four-byte key is the key of an
    int32 height: the encoding is a bijection between int32 and four-byte
    keys. *)
Theorem HeightToKey_bijection (h : Z) :
  is_int32 h ->
  KeyToHeight (HeightToKey h) = Some h
  ∧ length (HeightToKey h) = 4%nat
  ∧ Forall is_byte (HeightToKey h)
  ∧ HeightToKey h =
      [ (to_uint32 h / 16777216) mod 256; (to_uint32 h / 65536) mod 256;
        (to_uint32 h / 256) mod 256; to_uint32 h mod 256 ]
  ∧ (∀ h', is_int32 h' -> HeightToKey h' = HeightToKey h -> h' = h)
  ∧ (∀ k, length k = 4%nat -> Forall is_byte k ->
          ∃ h', is_int32 h' ∧ KeyToHeight k = Some h' ∧ HeightToKey h' = k).
Proof.
  intros Hh. split; [by apply KeyToHeight_HeightToKey|].
  split; [reflexivity|]. split; [apply HeightToKey_bytes|].
  split; [apply PutUint32_digits|]. split.
  - intros h' Hh' Heq.
    apply KeyToHeight_HeightToKey in Hh, Hh'. rewrite Heq in Hh'. congruence.
  - apply HeightToKey_KeyToHeight.
Qed.

Lemma HeightToKey_bijection_witness :
  is_int32 (-1)
  ∧ KeyToHeight (HeightToKey (-1)) = Some (-1)
  ∧ HeightToKey (-1) = [255; 255; 255; 255].
Proof.
  assert (H : is_int32 (-1)) by (unfold is_int32; lia).
  split; [exact H|]. split; [|reflexivity].
  exact (proj1 (HeightToKey_bijection (-1) H)).
Defined.

(** ** Errors and failures of the mutating operations *)

Ltac crush_cases :=
  repeat (simplify_eq/=; try done; case_match).






Section Transactions.

Variable E : Env.

(** A failed [db.Update] keeps the store; when its closure leaves the
    memory alone whenever it reports an error, only a failed commit can
    make the update fail with the memory changed. *)
Lemma db_Update_failure c fn :
  (∀ tx c1 e, fn (db c) c = (tx, c1, Some e) -> c1 = c) ->
  (∀ tx c1 r, fn (db c) c = (tx, c1, r) -> db c1 = db c) ->
  (db_Update E c fn).2 ≠ None ->
  db (db_Update E c fn).1 = db c
  ∧ ((∀ tx, bolt_Commit E tx = None) -> (db_Update E c fn).1 = c).
Proof.
  intros Hfail Hdb. unfold db_Update.
  destruct (bolt_Begin E true); [done|].
  destruct (fn (db c) c) as [[tx c1] [e|]] eqn:Hfn; simpl.
  - intros _. split; [by eapply Hdb|]. intros _. by eapply Hfail.
  - destruct (bolt_Commit E tx) eqn:Hc; simpl; [|done].
    intros _. split; [by eapply Hdb|]. intros Hno. by rewrite Hno in Hc.
Qed.

Lemma PushBlock_failure c b :
  (PushBlock E c b).2 ≠ None ->
  db (PushBlock E c b).1 = db c
  ∧ ((∀ tx, bolt_Commit E tx = None) -> (PushBlock E c b).1 = c).
Proof.
  unfold PushBlock. destruct (Block_MarshalBinary E b); [done|]. simpl.
  apply db_Update_failure; intros; crush_cases.
Qed.





(** A block push leaves the runtime alone. *)
Lemma PushBlock_rt c b : rt (PushBlock E c b).1 = rt c.
Proof.
  unfold PushBlock, db_Update. destruct (Block_MarshalBinary E b); [done|].
  simpl. crush_cases.
Qed.

(** Block production touches no runtime field but the pending block. *)
Lemma ProduceBlock_rt c parent now :
  clock (rt (ProduceBlock E c parent now).1) = clock (rt c)
  ∧ NextTurn (rt (ProduceBlock E c parent now).1) = NextTurn (rt c)
  ∧ stopCh (rt (ProduceBlock E c parent now).1) = stopCh (rt c).
Proof.
  unfold ProduceBlock. destruct (GetLocalPrivateKey E); [done|].
  destruct (PackAndSignBlock E _ _) as [pending [e|]]; [done|].
  by rewrite PushBlock_rt.
Qed.

Lemma Stop_rt c :
  clock (rt (Stop c).1) = clock (rt c)
  ∧ NextTurn (rt (Stop c).1) = NextTurn (rt c)
  ∧ pendingBlock (rt (Stop c).1) = pendingBlock (rt c).
Proof. unfold Stop, Runtime_Stop. by destruct (stopCh (rt c)). Qed.

(** [FetchBlock] faults whenever it finds the node of the height and the
    store lets it read. *)
Lemma FetchBlock_found_faults c h n :
  ancestor (st_node (state c)) h = Some n ->
  bolt_Begin E false = None ->
  FetchBlock E c h = Panics.
Proof. unfold FetchBlock. by intros -> ->. Qed.

(** [LoadChain] gives every block whose parent hash is not the hash of the
    block before it the same answer: the index of the chain it is loading
    is empty, so the lookup misses. *)
Lemma loadBlocks_other_parent_fails chain l k v kvs block :
  bi chain = ∅ ->
  Block_UnmarshalBinary E v = inr block ->
  block_ParentHash block ≠ bn_hash l ->
  loadBlocks E chain (Some l) ((k, v) :: kvs) = Some ErrParentNotFound.
Proof.
  intros Hbi Hdec Hne. simpl. rewrite Hdec. unfold Hash_IsEqual, LookupNode.
  rewrite bool_decide_eq_false_2 by done. by rewrite Hbi, lookup_empty.
Qed.

Lemma State_UnmarshalBinary_node s b :
  st_node (State_UnmarshalBinary s b).1 = st_node s.
Proof. unfold State_UnmarshalBinary. crush_cases. Qed.

(** Whatever the store holds, the chain that [LoadChain] returns has an
    empty block index and no tip node. *)
Lemma LoadChain_index_empty cfg file c r :
  LoadChain E cfg file = Returns (Some c, r) ->
  bi c = ∅ ∧ st_node (state c) = None.
Proof.
  unfold LoadChain.
  destruct (bolt_Open E); [done|].
  destruct (GetLocalPublicKey E) as [|pub]; [done|].
  destruct (bolt_Begin E false); [by intros [= <- <-]|].
  pose proof (State_UnmarshalBinary_node (mkState None zeroHash 0)
                (default [] (meta_state file))) as Hn.
  simpl. destruct (State_UnmarshalBinary _ _) as [s [e|]]; simpl in Hn.
  { by intros [= <- <-]. }
  destruct (loadBlocks E _ None (meta_blocks file)); [by intros [= <- <-]|].
  destruct (loadHeights E _ _) as [[q r']|]; [|done].
  by intros [= <- <-].
Qed.

End Transactions.

(** ** The claims *)




(** C2, evaluated. The store that [NewChain], two block pushes, a response
    push and an ack push have produced is loaded without error, with the
    head, the height and the ack of the memory it came from; but the
    loaded chain has an empty block index, where the memory had the node
    of [B2] at height 2, and no tip node. *)
Theorem LoadChain_loses_block_index :
  NewChain refEnv cfg0 emptyDB = (Some chainG, None)
  ∧ ∃ c', LoadChain refEnv cfg0 (db chainA1) = Returns (Some c', None)
    ∧ Head (state c') = Head (state chainA1)
    ∧ Height (state c') = Height (state chainA1)
    ∧ FetchAckedQuery c' 2 (ack_HeaderHash A1) = (Some A1, None)
    ∧ FetchAckedQuery chainA1 2 (ack_HeaderHash A1) = (Some A1, None)
    ∧ (bn_height <$> LookupNode (bi chainA1) (block_BlockHash B2)) = Some 2
    ∧ LookupNode (bi c') (block_BlockHash B2) = None
    ∧ bi c' = ∅
    ∧ (bn_hash <$> st_node (state chainA1)) = Some (block_BlockHash B2)
    ∧ st_node (state c') = None.
Proof.
  split; [vm_compute; reflexivity|].
  eexists. split; [vm_compute; reflexivity|].
  repeat split; vm_compute; reflexivity.
Qed.

(** C3, evaluated. [B2'] names the genesis block as its parent and is
    stored after [B1]. The load path of the specification finds the
    genesis node under that parent hash in the index it has built and
    loads the block; [LoadChain] looks the block's own hash up in the
    index of the chain, which it never fills, and fails with
    [ErrParentNotFound]. *)
Theorem LoadChain_parent_lookup_misses :
  (PushBlock refEnv (PushBlock refEnv chainG B1).1 B2').2 = None
  ∧ block_ParentHash B2' = block_BlockHash G
  ∧ (∃ c', LoadChain refEnv cfg0 (db chainFork)
           = Returns (Some c', Some ErrParentNotFound))
  ∧ ∃ index n,
      loadBlocks_spec refEnv ∅ None (meta_blocks (db chainFork))
      = (index, None)
      ∧ LookupNode index (block_BlockHash B2') = Some n
      ∧ (bn_hash <$> bn_parent n) = Some (block_BlockHash G).
Proof.
  split; [vm_compute; reflexivity|]. split; [reflexivity|]. split.
  - eexists. vm_compute. reflexivity.
  - do 2 eexists. split; [vm_compute; reflexivity|].
    split; vm_compute; reflexivity.
Qed.

(** C4. A block whose parent hash is not the current head is refused with
    [ErrInvalidBlock], and the chain (its state, block index and query
    index, and its store) is left as it was. *)
Theorem CheckAndPushNewBlock_wrong_parent E c b :
  block_ParentHash b ≠ Head (state c) ->
  CheckAndPushNewBlock E c b = (c, Some ErrInvalidBlock)
  ∧ memory (CheckAndPushNewBlock E c b).1 = memory c.
Proof.
  intros Hne. unfold CheckAndPushNewBlock, Hash_IsEqual.
  by rewrite bool_decide_eq_false_2.
Qed.

Lemma CheckAndPushNewBlock_wrong_parent_witness :
  block_ParentHash B2' ≠ Head (state chainB2)
  ∧ CheckAndPushNewBlock refEnv chainB2 B2' = (chainB2, Some ErrInvalidBlock).
Proof.
  assert (H : block_ParentHash B2' ≠ Head (state chainB2))
    by (vm_compute; discriminate).
  split; [exact H|].
  exact (proj1 (CheckAndPushNewBlock_wrong_parent refEnv chainB2 B2' H)).
Defined.


(** C6, as the code has it. From every runtime whose [NextTurn] is an
    int32 below the largest one, and whatever the turn body does (not my
    turn, a block produced, a failed production that stops the chain, a
    fault in stopping), [RunCurrentTurn] leaves [NextTurn] one higher and
    the clock fields ([Offset], [Period], [TimeResolution],
    [ChainInitTime]) as they were; when it is not this node's turn the
    pending block and the stop channel are as they were too, and the call
    returns; when a block is produced the stop channel is as it was, and
    the call returns. *)
Theorem RunCurrentTurn_advances E c now :
  -2147483648 <= NextTurn (rt c) < 2147483647 ->
  NextTurn (rt (RunCurrentTurn E c now).1) = NextTurn (rt c) + 1
  ∧ clock (rt (RunCurrentTurn E c now).1) = clock (rt c)
  ∧ (IsMyTurn c = false ->
     pendingBlock (rt (RunCurrentTurn E c now).1) = pendingBlock (rt c)
     ∧ stopCh (rt (RunCurrentTurn E c now).1) = stopCh (rt c)
     ∧ (RunCurrentTurn E c now).2 = Normal)
  ∧ (IsMyTurn c = true ->
     (ProduceBlock E c (Head (state c)) now).2 = None ->
     stopCh (rt (RunCurrentTurn E c now).1) = stopCh (rt c)
     ∧ (RunCurrentTurn E c now).2 = Normal).
Proof.
  intros Hn.
  assert (Hbody : ∀ c1,
            NextTurn (rt c1) = NextTurn (rt c) -> clock (rt c1) = clock (rt c) ->
            NextTurn (rt (set_rt (SetNextTurn (rt c1)) c1)) = NextTurn (rt c) + 1
            ∧ clock (rt (set_rt (SetNextTurn (rt c1)) c1)) = clock (rt c)).
  { intros c1 Ht Hc. simpl. rewrite Ht, add32_succ by done.
    split; [done|]. by rewrite <- Hc. }
  unfold RunCurrentTurn, IsMyTurn.
  destruct (isMyTurn c); simpl.
  - destruct (ProduceBlock_rt E c (Head (state c)) now) as (Hc & Ht & Hs).
    destruct (ProduceBlock E c (Head (state c)) now) as [c1 [e|]]; simpl in *.
    + destruct (Stop_rt c1) as (Hc' & Ht' & _).
      destruct (Stop c1) as [c2 k]; simpl in Hc', Ht'.
      destruct (Hbody c2) as [H1 H2]; [congruence..|]. done.
    + destruct (Hbody c1) as [H1 H2]; done.
  - destruct (Hbody c) as [H1 H2]; done.
Qed.

Lemma RunCurrentTurn_advances_witness :
  -2147483648 <= NextTurn (rt chainG) < 2147483647
  ∧ NextTurn (rt chainG) = 1
  ∧ NextTurn (rt (RunCurrentTurn refEnv chainG 10).1) = 2.
Proof.
  assert (H : -2147483648 <= NextTurn (rt chainG) < 2147483647)
    by (vm_compute; split; [discriminate|reflexivity]).
  split; [exact H|]. split; [reflexivity|].
  exact (proj1 (RunCurrentTurn_advances refEnv chainG 10 H)).
Defined.

(** C6, as stated, fails: at the largest int32 turn, when the turn is this
    node's and signing the block fails, [RunCurrentTurn] leaves [NextTurn]
    at the smallest int32 instead of one higher, the stop channel closed
    instead of open, and the pending block with the timestamp of the
    turn. *)
Lemma RunCurrentTurn_wraps_and_stops :
  IsMyTurn chainLastTurn = true
  ∧ NextTurn (rt chainLastTurn) = 2147483647
  ∧ stopCh (rt chainLastTurn) = ChanOpen
  ∧ block_Timestamp (pendingBlock (rt chainLastTurn)) = 0
  ∧ NextTurn (rt (RunCurrentTurn signFailsEnv chainLastTurn 30).1)
    = -2147483648
  ∧ stopCh (rt (RunCurrentTurn signFailsEnv chainLastTurn 30).1) = ChanClosed
  ∧ block_Timestamp
      (pendingBlock (rt (RunCurrentTurn signFailsEnv chainLastTurn 30).1))
    = 30
  ∧ (RunCurrentTurn signFailsEnv chainLastTurn 30).2 = Normal.
Proof. repeat split; vm_compute; reflexivity. Qed.

(** C7, evaluated. The request of [R] is of period 1 and its response of
    period 2. [PushResponedQuery] files [R] at height 1, the height of the
    request timestamp; [PushAckedQuery] files the ack [A1] of [R] at
    height 2, the height of the response timestamp: height 1 has no ack of
    that hash and its record of [R] has no ack. *)
Theorem PushAckedQuery_files_ack_by_response_time :
  (PushResponedQuery refEnv chainB2 R).2 = None
  ∧ (PushAckedQuery refEnv (PushResponedQuery refEnv chainB2 R).1 A1).2 = None
  ∧ GetHeightFromTime cfg0 (req_Timestamp (Request R)) = 1
  ∧ GetHeightFromTime cfg0 (resp_Timestamp R) = 2
  ∧ (rr_ack <$> hi_responses (heightIndex (qi chainA1) 1) !! resp_HeaderHash R)
    = Some None
  ∧ GetAck 1 (ack_HeaderHash A1) (qi chainA1) = (None, Some ErrAckNotFound)
  ∧ GetAck 2 (ack_HeaderHash A1) (qi chainA1) = (Some A1, None).
Proof. repeat split; vm_compute; reflexivity. Qed.

(** C8, evaluated. After the genesis block, [B1] and [B2] have been
    pushed, the node of height 2 on the best chain is that of [B2] and its
    block is in the store, but [FetchBlock] at height 2 faults: it calls
    the decoder on the nil block it is about to return. The same happens
    at heights 0 and 1. *)
Theorem FetchBlock_faults :
  (bn_hash <$> ancestor (st_node (state chainB2)) 2) = Some (block_BlockHash B2)
  ∧ (bucket_get (HeightToKey 2 ++ block_BlockHash B2) (meta_blocks (db chainB2))
     ≫= fun v => match Block_UnmarshalBinary refEnv v with
                 | inr b => Some b
                 | inl _ => None
                 end) = Some B2
  ∧ FetchBlock refEnv chainB2 2 = Panics
  ∧ FetchBlock refEnv chainB2 1 = Panics
  ∧ FetchBlock refEnv chainB2 0 = Panics.
Proof. repeat split; vm_compute; reflexivity. Qed.

(** C9, as the code has it. On a chain whose stop channel is open, [Stop]
    returns and leaves the channel closed and everything else as it was;
    a second [Stop] faults, and changes nothing. *)
Theorem Stop_once_then_faults c :
  stopCh (rt c) = ChanOpen ->
  (Stop c).2 = Normal
  ∧ stopCh (rt (Stop c).1) = ChanClosed
  ∧ clock (rt (Stop c).1) = clock (rt c)
  ∧ NextTurn (rt (Stop c).1) = NextTurn (rt c)
  ∧ pendingBlock (rt (Stop c).1) = pendingBlock (rt c)
  ∧ memory (Stop c).1 = memory c
  ∧ Stop (Stop c).1 = ((Stop c).1, Panic).
Proof.
  intros Hopen.
  assert (Hs : Stop c =
               (set_rt (mkRuntime (Offset (rt c)) (rt_Period (rt c))
                          (rt_TimeResolution (rt c)) (ChainInitTime (rt c))
                          (NextTurn (rt c)) (pendingBlock (rt c)) ChanClosed)
                       c, Normal)).
  { unfold Stop, Runtime_Stop. by rewrite Hopen. }
  rewrite Hs. simpl. repeat split.
Qed.

Lemma Stop_once_then_faults_witness :
  stopCh (rt chainG) = ChanOpen
  ∧ (Stop chainG).2 = Normal
  ∧ (Stop (Stop chainG).1).2 = Panic.
Proof.
  assert (H : stopCh (rt chainG) = ChanOpen) by reflexivity.
  split; [exact H|].
  destruct (Stop_once_then_faults chainG H) as (Hn & _ & _ & _ & _ & _ & Hp).
  split; [exact Hn|]. by rewrite Hp.
Defined.

(** C9, as stated, fails: the second [Stop] on a chain faults. *)
Lemma Stop_twice_faults :
  (Stop chainG).2 = Normal ∧ (Stop (Stop chainG).1).2 = Panic.
Proof. split; vm_compute; reflexivity. Qed.

(** * Further properties *)

(** ** Height keys in the order of the store *)

(** Four-byte keys compare as the numbers they spell in base 256. *)
Lemma bytes_compare_digits (a3 a2 a1 a0 b3 b2 b1 b0 : Z) :
  is_byte a3 -> is_byte a2 -> is_byte a1 -> is_byte a0 ->
  is_byte b3 -> is_byte b2 -> is_byte b1 -> is_byte b0 ->
  bytes_compare [a3; a2; a1; a0] [b3; b2; b1; b0]
  = (a0 + a1 * 256 + a2 * 65536 + a3 * 16777216
     ?= b0 + b1 * 256 + b2 * 65536 + b3 * 16777216).
Proof.
  unfold is_byte. intros. simpl.
  destruct (Z.compare_spec a3 b3); [|symmetry; apply Z.compare_lt_iff; lia
                                    |symmetry; apply Z.compare_gt_iff; lia].
  destruct (Z.compare_spec a2 b2); [|symmetry; apply Z.compare_lt_iff; lia
                                    |symmetry; apply Z.compare_gt_iff; lia].
  destruct (Z.compare_spec a1 b1); [|symmetry; apply Z.compare_lt_iff; lia
                                    |symmetry; apply Z.compare_gt_iff; lia].
  destruct (Z.compare_spec a0 b0); [|symmetry; apply Z.compare_lt_iff; lia
                                    |symmetry; apply Z.compare_gt_iff; lia].
  symmetry. apply Z.compare_eq_iff. lia.
Qed.

(** The keys of two heights compare as the heights read as uint32. *)
Lemma HeightToKey_order (h1 h2 : Z) :
  bytes_compare (HeightToKey h1) (HeightToKey h2)
  = (to_uint32 h1 ?= to_uint32 h2).
Proof.
  unfold HeightToKey. rewrite !PutUint32_digits.
  rewrite bytes_compare_digits
    by (unfold is_byte; apply Z.mod_pos_bound; lia).
  by rewrite !digits_sum by apply to_uint32_range.
Qed.

Lemma to_uint32_nonneg (h : Z) : 0 <= h < 2147483648 -> to_uint32 h = h.
Proof. intros. unfold to_uint32. apply Z.mod_small. lia. Qed.

Lemma to_uint32_neg (h : Z) :
  -2147483648 <= h < 0 -> to_uint32 h = h + 4294967296.
Proof. intros. unfold to_uint32. Z.div_mod_to_equations. lia. Qed.

(** X1. In the byte order of the store, the keys of two heights that are
    not negative are ordered as the heights, and the key of a negative
    height comes after the key of every height that is not negative. *)
Theorem HeightToKey_height_order (h1 h2 : Z) :
  is_int32 h1 -> is_int32 h2 ->
  (0 <= h1 -> 0 <= h2 ->
   bytes_compare (HeightToKey h1) (HeightToKey h2) = (h1 ?= h2))
  ∧ (h1 < 0 -> 0 <= h2 ->
     bytes_compare (HeightToKey h1) (HeightToKey h2) = Gt).
Proof.
  unfold is_int32. intros H1 H2. rewrite HeightToKey_order. split.
  - intros. by rewrite !to_uint32_nonneg by lia.
  - intros. rewrite to_uint32_neg, (to_uint32_nonneg h2) by lia.
    apply Z.compare_gt_iff. lia.
Qed.

Lemma HeightToKey_height_order_witness :
  is_int32 255 ∧ is_int32 256
  ∧ bytes_compare (HeightToKey 255) (HeightToKey 256) = Lt
  ∧ bytes_compare (HeightToKey (-1)) (HeightToKey 256) = Gt.
Proof.
  assert (H1 : is_int32 255) by (unfold is_int32; lia).
  assert (H2 : is_int32 256) by (unfold is_int32; lia).
  assert (H3 : is_int32 (-1)) by (unfold is_int32; lia).
  split; [exact H1|]. split; [exact H2|]. split.
  - apply (proj1 (HeightToKey_height_order 255 256 H1 H2)); lia.
  - apply (proj2 (HeightToKey_height_order (-1) 256 H3 H2)); lia.
Defined.

(** X2. [KeyToHeight] faults exactly on the keys shorter than four bytes,
    and reads the height off the first four bytes of a longer key, such
    as the index key of a block. *)
Theorem KeyToHeight_short_or_prefix :
  (∀ k, KeyToHeight k = None ↔ (length k < 4)%nat)
  ∧ (∀ h rest, is_int32 h -> KeyToHeight (HeightToKey h ++ rest) = Some h).
Proof.
  split.
  - intros k. unfold KeyToHeight, Uint32.
    destruct k as [|b0 [|b1 [|b2 [|b3 k]]]]; simpl; split; try done; lia.
  - intros h rest Hh.
    pose proof (KeyToHeight_HeightToKey h Hh) as Hk.
    unfold KeyToHeight, HeightToKey, PutUint32, Uint32 in *. by simpl in *.
Qed.

(** ** The state codec *)

(** Encoding a state and decoding it again. *)
Lemma State_codec_roundtrip (s s0 : State) :
  length (Head s) = 32%nat -> is_int32 (Height s) ->
  ∃ enc, State_MarshalBinary s = inr enc
         ∧ length enc = 36%nat
         ∧ State_UnmarshalBinary s0 enc
           = (mkState (st_node s0) (Head s) (Height s), None).
Proof.
  intros Hlen Hh. eexists. split; [reflexivity|]. split.
  { rewrite length_app, Hlen. reflexivity. }
  unfold State_UnmarshalBinary.
  rewrite take_app_length' by done.
  rewrite bool_decide_eq_true_2 by done.
  rewrite drop_app_length' by done.
  by rewrite KeyToHeight_HeightToKey.
Qed.

(** X3. A state whose head is a 32-byte hash and whose height is an int32
    is encoded in 36 bytes, and decoding them into any state gives the
    head and the height back and keeps the node of the receiver. *)
Theorem State_roundtrip (s s0 : State) :
  length (Head s) = 32%nat -> is_int32 (Height s) ->
  ∃ enc, State_MarshalBinary s = inr enc
         ∧ length enc = 36%nat
         ∧ State_UnmarshalBinary s0 enc
           = (mkState (st_node s0) (Head s) (Height s), None).
Proof. exact (State_codec_roundtrip s s0). Qed.

Lemma State_roundtrip_witness :
  length (Head (state chainB2)) = 32%nat
  ∧ is_int32 (Height (state chainB2))
  ∧ ∃ enc, State_MarshalBinary (state chainB2) = inr enc
           ∧ length enc = 36%nat
           ∧ State_UnmarshalBinary (mkState None zeroHash 0) enc
             = (mkState None (Head (state chainB2)) (Height (state chainB2)),
                None).
Proof.
  assert (H1 : length (Head (state chainB2)) = 32%nat) by reflexivity.
  assert (H2 : is_int32 (Height (state chainB2)))
    by (vm_compute; split; [discriminate|reflexivity]).
  split; [exact H1|]. split; [exact H2|].
  exact (State_roundtrip (state chainB2) (mkState None zeroHash 0) H1 H2).
Defined.

(** X4. Decoding a state from fewer than 36 bytes, an empty value
    included, is an error, and the receiver keeps its node. *)
Theorem State_UnmarshalBinary_short (s : State) (b : bytes) :
  (length b < 36)%nat ->
  (State_UnmarshalBinary s b).2 ≠ None
  ∧ st_node (State_UnmarshalBinary s b).1 = st_node s.
Proof.
  intros Hlen. unfold State_UnmarshalBinary.
  case_bool_decide as H32.
  - assert (Hd : (length (drop 32 b) < 4)%nat) by (rewrite length_drop; lia).
    assert (Hk : KeyToHeight (drop 32 b) = None).
    { unfold KeyToHeight, Uint32.
      destruct (drop 32 b) as [|? [|? [|? [|? ?]]]]; simpl in *; try done; lia. }
    rewrite Hk. simpl. by split.
  - simpl. by split.
Qed.

Lemma State_UnmarshalBinary_short_witness :
  (length ([] : bytes) < 36)%nat
  ∧ (State_UnmarshalBinary (state chainB2) []).2 ≠ None.
Proof.
  assert (H : (length ([] : bytes) < 36)%nat) by (simpl; lia).
  split; [exact H|].
  exact (proj1 (State_UnmarshalBinary_short (state chainB2) [] H)).
Defined.

(** ** What a block push leaves in the store *)

Lemma bytes_compare_refl (k : bytes) : bytes_compare k k = Eq.
Proof. induction k as [|x k IH]; simpl; [done|]. by rewrite Z.compare_refl. Qed.

Lemma bytes_compare_eq (a b : bytes) : bytes_compare a b = Eq -> a = b.
Proof.
  revert b. induction a as [|x a IH]; intros [|y b]; simpl; try done.
  destruct (Z.compare_spec x y); try done. intros. subst. f_equal. auto.
Qed.

Lemma bytes_compare_ne (a b : bytes) : a ≠ b -> bytes_compare a b ≠ Eq.
Proof. intros Hne Heq. by apply bytes_compare_eq in Heq. Qed.

Lemma bucket_get_put_eq {V} (k : bytes) (v : V) (b : Bucket V) :
  bucket_get k (bucket_put k v b) = Some v.
Proof.
  induction b as [|[k' v'] b IH]; simpl.
  - by rewrite bytes_compare_refl.
  - destruct (bytes_compare k k') eqn:Hc; simpl.
    + by rewrite bytes_compare_refl.
    + by rewrite bytes_compare_refl.
    + by rewrite Hc.
Qed.

Lemma bucket_get_put_ne {V} (k k' : bytes) (v : V) (b : Bucket V) :
  k' ≠ k -> bucket_get k' (bucket_put k v b) = bucket_get k' b.
Proof.
  intros Hne. pose proof (bytes_compare_ne k' k Hne) as Hkk.
  induction b as [|[k0 v0] b IH]; simpl.
  - by destruct (bytes_compare k' k).
  - destruct (bytes_compare k k0) eqn:Hc; simpl.
    + apply bytes_compare_eq in Hc as <-.
      by destruct (bytes_compare k' k).
    + by destruct (bytes_compare k' k).
    + by rewrite IH.
Qed.

Lemma newBlockNode_height_int32 b parent :
  is_int32 (bn_height (newBlockNode b parent)).
Proof.
  unfold newBlockNode. simpl. destruct parent; [apply wrap32_range|].
  unfold is_int32. lia.
Qed.

(** The store and the state after a block push that succeeded. *)
Lemma PushBlock_store E c b c' :
  PushBlock E c b = (c', None) ->
  let node := newBlockNode b (st_node (state c)) in
  state c' = mkState (Some node) (bn_hash node) (bn_height node)
  ∧ meta_state (db c')
    = Some (Head (state c') ++ HeightToKey (Height (state c')))
  ∧ (bucket_get (indexKey node) (meta_blocks (db c')) ≫= Some)
    = match Block_MarshalBinary E b with inr enc => Some enc | inl _ => None end
  ∧ (∀ k, k ≠ indexKey node ->
          bucket_get k (meta_blocks (db c')) = bucket_get k (meta_blocks (db c)))
  ∧ meta_heights (db c') = meta_heights (db c).
Proof.
  intros H node. revert H. unfold PushBlock, db_Update, tx_Put. intros H.
  fold node in H. destruct (Block_MarshalBinary E b) as [|enc]; [done|]. simpl in H.
  destruct (bolt_Begin E true); [done|].
  destruct (bolt_Put E BktMeta _ _); [done|].
  destruct (bolt_Put E BktBlockIndex _ _); [done|].
  destruct (bolt_Commit E _); [done|].
  simplify_eq/=. repeat split.
  - by rewrite bucket_get_put_eq.
  - intros k Hk. by rewrite bucket_get_put_ne.
Qed.

(** X5. After a block push that succeeded the state is that of the new
    node, the state key of the store holds its encoding, the block bucket
    holds the encoded block under the index key of the node, and every
    other block key and the height buckets are as they were. *)
Theorem PushBlock_persists E c b c' :
  PushBlock E c b = (c', None) ->
  let node := newBlockNode b (st_node (state c)) in
  state c' = mkState (Some node) (bn_hash node) (bn_height node)
  ∧ meta_state (db c')
    = Some (Head (state c') ++ HeightToKey (Height (state c')))
  ∧ (bucket_get (indexKey node) (meta_blocks (db c')) ≫= Some)
    = match Block_MarshalBinary E b with inr enc => Some enc | inl _ => None end
  ∧ (∀ k, k ≠ indexKey node ->
          bucket_get k (meta_blocks (db c')) = bucket_get k (meta_blocks (db c)))
  ∧ meta_heights (db c') = meta_heights (db c).
Proof. exact (PushBlock_store E c b c'). Qed.

Lemma PushBlock_persists_witness :
  PushBlock refEnv chainG B1 = ((PushBlock refEnv chainG B1).1, None)
  ∧ Height (state (PushBlock refEnv chainG B1).1) = 1
  ∧ meta_heights (db (PushBlock refEnv chainG B1).1) = meta_heights (db chainG).
Proof.
  assert (H : PushBlock refEnv chainG B1
              = ((PushBlock refEnv chainG B1).1, None))
    by (vm_compute; reflexivity).
  split; [exact H|].
  destruct (PushBlock_persists refEnv chainG B1 _ H) as (Hs & _ & _ & _ & Hh).
  split; [by rewrite Hs|exact Hh].
Defined.

(** X6. The state key that a successful block push leaves in the store
    decodes, into any state, to the head and the height that the push
    left in memory, when the block hash has its 32 bytes. *)
Theorem PushBlock_state_restorable E c b c' s0 :
  PushBlock E c b = (c', None) ->
  length (block_BlockHash b) = 32%nat ->
  ∃ enc, meta_state (db c') = Some enc
         ∧ State_UnmarshalBinary s0 enc
           = (mkState (st_node s0) (Head (state c')) (Height (state c')),
              None).
Proof.
  intros Hpush Hlen.
  destruct (PushBlock_store E c b c' Hpush) as (Hs & Hm & _).
  eexists. split; [exact Hm|].
  destruct (State_codec_roundtrip (state c') s0) as (enc & Henc & _ & Hdec).
  - by rewrite Hs.
  - rewrite Hs. apply newBlockNode_height_int32.
  - unfold State_MarshalBinary in Henc. by simplify_eq.
Qed.

Lemma PushBlock_state_restorable_witness :
  PushBlock refEnv chainG B1 = ((PushBlock refEnv chainG B1).1, None)
  ∧ length (block_BlockHash B1) = 32%nat
  ∧ ∃ enc, meta_state (db (PushBlock refEnv chainG B1).1) = Some enc
           ∧ (State_UnmarshalBinary (mkState None zeroHash 0) enc).2 = None.
Proof.
  assert (H : PushBlock refEnv chainG B1
              = ((PushBlock refEnv chainG B1).1, None))
    by (vm_compute; reflexivity).
  assert (H32 : length (block_BlockHash B1) = 32%nat) by reflexivity.
  split; [exact H|]. split; [exact H32|].
  destruct (PushBlock_state_restorable refEnv chainG B1 _
              (mkState None zeroHash 0) H H32) as (enc & He & Hd).
  exists enc. split; [exact He|]. by rewrite Hd.
Defined.

(** ** Height buckets *)

(** The effects of [ensureHeight] on a transaction. *)
Lemma ensureHeight_effects E tx k :
  meta_state (ensureHeight E tx k).1 = meta_state tx
  ∧ meta_blocks (ensureHeight E tx k).1 = meta_blocks tx
  ∧ (∀ k', k' ≠ k ->
       bucket_get k' (meta_heights (ensureHeight E tx k).1)
       = bucket_get k' (meta_heights tx))
  ∧ (bucket_has k (meta_heights tx) -> ensureHeight E tx k = (tx, None))
  ∧ ((ensureHeight E tx k).2 = None ->
     bucket_has k (meta_heights (ensureHeight E tx k).1))
  ∧ ((ensureHeight E tx k).2 ≠ None ->
     (ensureHeight E tx k).1 = tx ∧ ¬ bucket_has k (meta_heights tx)).
Proof.
  unfold ensureHeight, bucket_has.
  destruct (bucket_get k (meta_heights tx)) as [hb|] eqn:Hget.
  { simpl. rewrite Hget. repeat split; eauto; done. }
  destruct (createBuckets E _) as [e|]; simpl.
  { rewrite Hget. repeat split; try done; by intros []. }
  rewrite bucket_get_put_eq. repeat split; eauto; try done.
  intros k' Hk. by rewrite bucket_get_put_ne.
Qed.


Lemma ensureHeight_ok E tx k tx' :
  ensureHeight E tx k = (tx', None) ->
  meta_state tx' = meta_state tx ∧ meta_blocks tx' = meta_blocks tx
  ∧ bucket_has k (meta_heights tx')
  ∧ (∀ k', k' ≠ k ->
       bucket_get k' (meta_heights tx') = bucket_get k' (meta_heights tx)).
Proof.
  intros H. destruct (ensureHeight_effects E tx k) as (H1 & H2 & H3 & _ & H5 & _).
  rewrite H in *. simpl in *. repeat split; auto.
Qed.

(** ** What the query pushes leave in the store *)

(** X8. After a response push that succeeded the store holds the encoded
    response under its header hash, in the response bucket of the height of
    the request timestamp; the other heights, the state key and the blocks
    are as they were, and so are the state, the block index and the
    runtime of the chain. *)
Theorem PushResponedQuery_persists E c resp c' :
  PushResponedQuery E c resp = (c', None) ->
  let k := HeightToKey
             (GetHeightFromTime (cfg c) (req_Timestamp (Request resp))) in
  (bucket_get k (meta_heights (db c'))
     ≫= fun hb => bucket_get (resp_HeaderHash resp) (hb_responses hb))
  = match Response_MarshalBinary E resp with
    | inr enc => Some enc
    | inl _ => None
    end
  ∧ (∀ k', k' ≠ k ->
       bucket_get k' (meta_heights (db c'))
       = bucket_get k' (meta_heights (db c)))
  ∧ meta_state (db c') = meta_state (db c)
  ∧ meta_blocks (db c') = meta_blocks (db c)
  ∧ state c' = state c ∧ bi c' = bi c ∧ rt c' = rt c.
Proof.
  intros H k. revert H. unfold PushResponedQuery, db_Update. fold k.
  destruct (Response_MarshalBinary E resp) as [|enc]; [done|].
  destruct (bolt_Begin E true); [done|].
  destruct (ensureHeight E (db c) k) as [tx [e|]] eqn:He; [done|].
  apply ensureHeight_ok in He as (Hs & Hb & [hb Hhb] & Hne).
  unfold tx_Put. destruct (bolt_Put E _ _ _); [done|].
  destruct (AddResponse _ _ _) as [q [e|]]; [done|].
  destruct (bolt_Commit E _); [done|].
  intros [= <-]. simpl. rewrite Hhb. simpl.
  rewrite bucket_get_put_eq. simpl. rewrite bucket_get_put_eq.
  repeat split; try done.
  intros k' Hk. rewrite bucket_get_put_ne by done. by apply Hne.
Qed.

Lemma PushResponedQuery_persists_witness :
  PushResponedQuery refEnv chainB2 R
  = ((PushResponedQuery refEnv chainB2 R).1, None)
  ∧ state (PushResponedQuery refEnv chainB2 R).1 = state chainB2
  ∧ meta_blocks (db (PushResponedQuery refEnv chainB2 R).1)
    = meta_blocks (db chainB2).
Proof.
  assert (H : PushResponedQuery refEnv chainB2 R
              = ((PushResponedQuery refEnv chainB2 R).1, None))
    by (vm_compute; reflexivity).
  split; [exact H|].
  destruct (PushResponedQuery_persists refEnv chainB2 R _ H)
    as (_ & _ & _ & Hb & Hs & _).
  split; [exact Hs|exact Hb].
Defined.

(** X9. When the store reports [ErrIncompatibleValue] for the write of an
    ack, [PushAckedQuery] goes on: if it succeeds, the query index has
    taken the ack, and the store has under the ack's hash what it had
    before. *)
Theorem PushAckedQuery_incompatible_value E c ack enc c' :
  let k := HeightToKey (GetHeightFromTime (cfg c)
                          (resp_Timestamp (ack_SignedResponseHeader ack))) in
  Ack_MarshalBinary E ack = inr enc ->
  bolt_Put E (BktAckIndex k) (ack_HeaderHash ack) enc
  = Some BoltErrIncompatibleValue ->
  PushAckedQuery E c ack = (c', None) ->
  qi c' = (AddAck (GetHeightFromTime (cfg c)
                     (resp_Timestamp (ack_SignedResponseHeader ack)))
             ack (qi c)).1
  ∧ (bucket_get k (meta_heights (db c'))
       ≫= fun hb => bucket_get (ack_HeaderHash ack) (hb_acks hb))
    = (bucket_get k (meta_heights (db c))
       ≫= fun hb => bucket_get (ack_HeaderHash ack) (hb_acks hb)).
Proof.
  intros k Henc Hput. unfold PushAckedQuery, db_Update. fold k.
  rewrite Henc. destruct (bolt_Begin E true); [done|].
  unfold ensureHeight, tx_Put. rewrite Hput.
  destruct (bucket_get k (meta_heights (db c))) as [hb|] eqn:Hget.
  - rewrite bool_decide_eq_false_2 by (intros [? ?]; done).
    destruct (AddAck _ _ _) as [q [e|]]; [done|].
    destruct (bolt_Commit E _); [done|].
    intros [= <-]. simpl. rewrite Hget. by destruct (isMyTurn c).
  - destruct (createBuckets E _); [done|].
    rewrite bool_decide_eq_false_2 by (intros [? ?]; done).
    destruct (AddAck _ _ _) as [q [e|]]; [done|].
    destruct (bolt_Commit E _); [done|].
    intros [= <-]. simpl. rewrite bucket_get_put_eq.
    by destruct (isMyTurn c).
Qed.

Lemma PushAckedQuery_incompatible_value_witness :
  (PushAckedQuery incompatibleEnv chainB2 A1).2 = None
  ∧ GetAck 2 (ack_HeaderHash A1)
      (qi (PushAckedQuery incompatibleEnv chainB2 A1).1) = (Some A1, None)
  ∧ (bucket_get (HeightToKey 2)
       (meta_heights (db (PushAckedQuery incompatibleEnv chainB2 A1).1))
     ≫= fun hb => bucket_get (ack_HeaderHash A1) (hb_acks hb)) = None.
Proof.
  assert (H : PushAckedQuery incompatibleEnv chainB2 A1
              = ((PushAckedQuery incompatibleEnv chainB2 A1).1, None))
    by (vm_compute; reflexivity).
  split; [by rewrite H|].
  destruct (PushAckedQuery_incompatible_value incompatibleEnv chainB2 A1
              (match ref_Ack_MarshalBinary A1 with
               | inr e => e
               | inl _ => []
               end) _ eq_refl eq_refl H) as [Hq Hs].
  split; [rewrite Hq; vm_compute; reflexivity|].
  etrans; [exact Hs|]. vm_compute. reflexivity.
Defined.

(** X10. After an ack push that succeeded with its store write accepted,
    the store holds the encoded ack under its header hash, in the ack
    bucket of the height of the wrapped response's timestamp; the state
    key and the blocks are as they were, and so are the state and the
    block index of the chain, and its runtime unless the turn is this
    node's. *)
Theorem PushAckedQuery_persists E c ack enc c' :
  let k := HeightToKey (GetHeightFromTime (cfg c)
                          (resp_Timestamp (ack_SignedResponseHeader ack))) in
  Ack_MarshalBinary E ack = inr enc ->
  bolt_Put E (BktAckIndex k) (ack_HeaderHash ack) enc = None ->
  PushAckedQuery E c ack = (c', None) ->
  (bucket_get k (meta_heights (db c'))
     ≫= fun hb => bucket_get (ack_HeaderHash ack) (hb_acks hb)) = Some enc
  ∧ meta_state (db c') = meta_state (db c)
  ∧ meta_blocks (db c') = meta_blocks (db c)
  ∧ state c' = state c ∧ bi c' = bi c
  ∧ (IsMyTurn c = false -> rt c' = rt c).
Proof.
  intros k Henc Hput. unfold PushAckedQuery, db_Update. fold k.
  rewrite Henc. destruct (bolt_Begin E true); [done|].
  destruct (ensureHeight E (db c) k) as [tx [e|]] eqn:He; [done|].
  apply ensureHeight_ok in He as (Hs & Hb & [hb Hhb] & Hne).
  unfold tx_Put. rewrite Hput.
  rewrite bool_decide_eq_false_2 by (intros [? ?]; done).
  destruct (AddAck _ _ _) as [q [e|]]; [done|].
  destruct (bolt_Commit E _); [done|].
  intros [= <-]. simpl. rewrite Hhb. simpl.
  rewrite bucket_get_put_eq. simpl. rewrite bucket_get_put_eq.
  unfold IsMyTurn. by destruct (isMyTurn c).
Qed.

Lemma PushAckedQuery_persists_witness :
  (PushAckedQuery refEnv chainB2 A1).2 = None
  ∧ state (PushAckedQuery refEnv chainB2 A1).1 = state chainB2
  ∧ rt (PushAckedQuery refEnv chainB2 A1).1 = rt chainB2.
Proof.
  assert (H : PushAckedQuery refEnv chainB2 A1
              = ((PushAckedQuery refEnv chainB2 A1).1, None))
    by (vm_compute; reflexivity).
  split; [by rewrite H|].
  destruct (PushAckedQuery_persists refEnv chainB2 A1
              (match ref_Ack_MarshalBinary A1 with
               | inr e => e
               | inl _ => []
               end) _ eq_refl eq_refl H) as (_ & _ & _ & Hs & _ & Hr).
  split; [exact Hs|]. by apply Hr.
Defined.

(** ** Nothing is removed, and the tip stays coherent *)

Lemma bucket_le_refl {V} (b : Bucket V) : bucket_le b b.
Proof. by intros k. Qed.

Lemma bucket_le_trans {V} (a b c : Bucket V) :
  bucket_le a b -> bucket_le b c -> bucket_le a c.
Proof. intros H1 H2 k Hk. auto. Qed.

Lemma bucket_le_put {V} (k : bytes) (v : V) (b : Bucket V) :
  bucket_le b (bucket_put k v b).
Proof.
  intros k' Hk. unfold bucket_has in *.
  destruct (decide (k' = k)) as [->|Hne].
  - rewrite bucket_get_put_eq. eauto.
  - by rewrite bucket_get_put_ne.
Qed.

Lemma store_le_refl d : store_le d d.
Proof.
  split; [done|]. split; [apply bucket_le_refl|].
  intros k hb Hk. exists hb. repeat split; try done; apply bucket_le_refl.
Qed.

Lemma store_le_trans a b c : store_le a b -> store_le b c -> store_le a c.
Proof.
  intros (Hs1 & Hb1 & Hh1) (Hs2 & Hb2 & Hh2).
  split; [auto|]. split; [by eapply bucket_le_trans|].
  intros k hb Hk.
  destruct (Hh1 k hb Hk) as (hb1 & Hk1 & ? & ? & ?).
  destruct (Hh2 k hb1 Hk1) as (hb2 & Hk2 & ? & ? & ?).
  exists hb2. repeat split; try done; by eapply bucket_le_trans.
Qed.

(** Replacing the bucket of a height by one with more keys gives a store
    with more keys. *)
Lemma store_le_put_height d k hb' :
  (∀ hb, bucket_get k (meta_heights d) = Some hb ->
         bucket_le (hb_requests hb) (hb_requests hb')
         ∧ bucket_le (hb_responses hb) (hb_responses hb')
         ∧ bucket_le (hb_acks hb) (hb_acks hb')) ->
  store_le d (mkDB (meta_state d) (meta_blocks d)
                   (bucket_put k hb' (meta_heights d))).
Proof.
  intros Hle. split; [done|]. split; [apply bucket_le_refl|]. simpl.
  intros k0 hb Hk. destruct (decide (k0 = k)) as [->|Hne].
  - rewrite bucket_get_put_eq. exists hb'. split; [done|]. by apply Hle.
  - rewrite bucket_get_put_ne by done. exists hb.
    repeat split; try done; apply bucket_le_refl.
Qed.

Lemma tx_Put_store_le E id k v tx : store_le tx (tx_Put E id k v tx).1.
Proof.
  unfold tx_Put. destruct (bolt_Put E id k v); [apply store_le_refl|].
  destruct id; simpl.
  - split; [eauto|]. split; [apply bucket_le_refl|].
    intros k0 hb Hk. exists hb. repeat split; try done; apply bucket_le_refl.
  - split; [done|]. split; [apply bucket_le_put|].
    intros k0 hb Hk. exists hb. repeat split; try done; apply bucket_le_refl.
  - apply store_le_put_height. intros hb ->. simpl.
    repeat split; try apply bucket_le_refl. apply bucket_le_put.
  - apply store_le_put_height. intros hb ->. simpl.
    repeat split; try apply bucket_le_refl. apply bucket_le_put.
Qed.

Lemma ensureHeight_store_le E tx k : store_le tx (ensureHeight E tx k).1.
Proof.
  unfold ensureHeight.
  destruct (bucket_get k (meta_heights tx)) eqn:Hget; [apply store_le_refl|].
  destruct (createBuckets E _); [apply store_le_refl|]. simpl.
  apply store_le_put_height. intros hb Hhb. congruence.
Qed.

Lemma extends_refl c : extends c c.
Proof. unfold extends. split_and!; try done. apply store_le_refl. Qed.

Lemma extends_trans a b c : extends a b -> extends b c -> extends a c.
Proof.
  intros (H1 & H2 & H3 & H4 & H5) (G1 & G2 & G3 & G4 & G5).
  unfold extends. split_and!; try congruence; auto.
  by eapply store_le_trans.
Qed.

(** A change that leaves the state and the block index alone. *)
Lemma extends_frame c c' :
  cfg c' = cfg c -> isMyTurn c' = isMyTurn c -> store_le (db c) (db c') ->
  state c' = state c -> bi c' = bi c -> extends c c'.
Proof.
  intros H1 H2 H3 H4 H5. unfold extends. split_and!; try done.
  - intros h. by rewrite H5.
  - unfold tip_coherent. by rewrite H4, H5.
Qed.

Lemma HasBlock_AddBlock n bi h :
  HasBlock bi h = true -> HasBlock (AddBlock n bi) h = true.
Proof.
  unfold HasBlock, AddBlock. intros H%bool_decide_eq_true.
  apply bool_decide_eq_true. rewrite lookup_insert_is_Some.
  destruct (decide (bn_hash n = h)); auto.
Qed.

Lemma db_Update_extends E c fn :
  (∀ tx c1 r, fn (db c) c = (tx, c1, r) ->
              store_le (db c) tx ∧ db c1 = db c ∧ extends c c1) ->
  extends c (db_Update E c fn).1.
Proof.
  intros Hfn. unfold db_Update.
  destruct (bolt_Begin E true); [apply extends_refl|].
  destruct (fn (db c) c) as [[tx c1] r] eqn:Hf.
  destruct (Hfn tx c1 r eq_refl) as (Htx & Hdb & Hext).
  destruct r as [e|]; [done|].
  destruct (bolt_Commit E tx); [done|]. simpl.
  destruct Hext as (H1 & H2 & H3 & H4 & H5).
  unfold extends. split_and!; done.
Qed.

Lemma PushBlock_extends E c b : extends c (PushBlock E c b).1.
Proof.
  unfold PushBlock.
  destruct (Block_MarshalBinary E b) as [|l]; [apply extends_refl|].
  simpl. apply db_Update_extends. intros tx c1 r.
  pose proof (tx_Put_store_le E BktMeta metaStateKey
                (Head (mkState (Some (newBlockNode b (st_node (state c))))
                         (bn_hash (newBlockNode b (st_node (state c))))
                         (bn_height (newBlockNode b (st_node (state c)))))
                 ++ HeightToKey
                      (bn_height (newBlockNode b (st_node (state c)))))
                (db c)) as Hle1.
  simpl in Hle1.
  destruct (tx_Put E BktMeta _ _ (db c)) as [tx1 [e|]];
    [intros [= <- <- <-]; split; [done|]; split; [done|apply extends_refl]|].
  pose proof (tx_Put_store_le E BktBlockIndex
                (indexKey (newBlockNode b (st_node (state c)))) l tx1) as Hle2.
  destruct (tx_Put E BktBlockIndex _ _ tx1) as [tx2 [e|]]; simpl in *.
  { intros [= <- <- <-]. split; [by eapply store_le_trans|].
    split; [done|apply extends_refl]. }
  intros [= <- <- <-]. split; [by eapply store_le_trans|]. split; [done|].
  unfold extends. split_and!; simpl; try done.
  - apply store_le_refl.
  - intros h. apply HasBlock_AddBlock.
  - intros _. eexists. split_and!; try done.
    unfold LookupNode, AddBlock. simpl. apply lookup_insert_eq.
Qed.

Lemma PushResponedQuery_extends E c resp :
  extends c (PushResponedQuery E c resp).1.
Proof.
  unfold PushResponedQuery.
  destruct (Response_MarshalBinary E resp) as [|enc]; [apply extends_refl|].
  apply db_Update_extends. intros tx c1 r.
  pose proof (ensureHeight_store_le E (db c)
                (HeightToKey (GetHeightFromTime (cfg c)
                                (req_Timestamp (Request resp))))) as Hle1.
  destruct (ensureHeight E (db c) _) as [tx1 [e|]]; simpl in Hle1.
  { intros [= <- <- <-]. split; [done|]. split; [done|apply extends_refl]. }
  pose proof (tx_Put_store_le E
                (BktResponseIndex
                   (HeightToKey (GetHeightFromTime (cfg c)
                                   (req_Timestamp (Request resp)))))
                (resp_HeaderHash resp) enc tx1) as Hle2.
  destruct (tx_Put E _ _ _ tx1) as [tx2 [e|]]; simpl in Hle2.
  { intros [= <- <- <-]. split; [by eapply store_le_trans|].
    split; [done|apply extends_refl]. }
  destruct (AddResponse _ _ _) as [q r'].
  intros [= <- <- <-]. split; [by eapply store_le_trans|]. split; [done|].
  apply extends_frame; try done. apply store_le_refl.
Qed.

Lemma PushAckedQuery_extends E c ack :
  extends c (PushAckedQuery E c ack).1.
Proof.
  unfold PushAckedQuery.
  destruct (Ack_MarshalBinary E ack) as [|enc]; [apply extends_refl|].
  apply db_Update_extends. intros tx c1 r.
  pose proof (ensureHeight_store_le E (db c)
                (HeightToKey
                   (GetHeightFromTime (cfg c)
                      (resp_Timestamp (ack_SignedResponseHeader ack)))))
    as Hle1.
  destruct (ensureHeight E (db c) _) as [tx1 [e|]]; simpl in Hle1.
  { intros [= <- <- <-]. split; [done|]. split; [done|apply extends_refl]. }
  pose proof (tx_Put_store_le E
                (BktAckIndex
                   (HeightToKey
                      (GetHeightFromTime (cfg c)
                         (resp_Timestamp (ack_SignedResponseHeader ack)))))
                (ack_HeaderHash ack) enc tx1) as Hle2.
  destruct (tx_Put E _ _ _ tx1) as [tx2 r2]; simpl in Hle2.
  assert (Htx : store_le (db c) tx2) by (by eapply store_le_trans).
  destruct (bool_decide _).
  { intros [= <- <- <-]. split; [done|]. split; [done|apply extends_refl]. }
  destruct (AddAck _ _ _) as [q [e|]].
  { intros [= <- <- <-]. split; [done|]. split; [done|].
    apply extends_frame; try done. apply store_le_refl. }
  intros [= <- <- <-]. split; [done|].
  unfold IsMyTurn. simpl. destruct (isMyTurn c); simpl.
  - split; [done|]. apply extends_frame; try done. apply store_le_refl.
  - split; [done|]. apply extends_frame; try done. apply store_le_refl.
Qed.

Lemma CheckAndPushNewBlock_extends E c b :
  extends c (CheckAndPushNewBlock E c b).1.
Proof.
  unfold CheckAndPushNewBlock.
  repeat (case_match; try apply extends_refl).
  apply PushBlock_extends.
Qed.

Lemma VerifyAndPushResponsedQuery_extends E c resp :
  extends c (VerifyAndPushResponsedQuery E c resp).1.
Proof.
  unfold VerifyAndPushResponsedQuery.
  repeat (case_match; try apply extends_refl).
  apply PushResponedQuery_extends.
Qed.

Lemma VerifyAndPushAckedQuery_extends E c ack :
  extends c (VerifyAndPushAckedQuery E c ack).1.
Proof.
  unfold VerifyAndPushAckedQuery.
  repeat (case_match; try apply extends_refl).
  apply PushAckedQuery_extends.
Qed.

Lemma set_rt_extends r c : extends c (set_rt r c).
Proof. apply extends_frame; try done. apply store_le_refl. Qed.

Lemma ProduceBlock_extends E c parent now :
  extends c (ProduceBlock E c parent now).1.
Proof.
  unfold ProduceBlock.
  destruct (GetLocalPrivateKey E); [apply extends_refl|].
  destruct (PackAndSignBlock E _ _) as [pending [e|]].
  - apply set_rt_extends.
  - eapply extends_trans; [apply set_rt_extends|apply PushBlock_extends].
Qed.

Lemma Stop_extends c : extends c (Stop c).1.
Proof.
  unfold Stop. destruct (Runtime_Stop (rt c)) as [r k]. apply set_rt_extends.
Qed.

Lemma RunCurrentTurn_extends E c now : extends c (RunCurrentTurn E c now).1.
Proof.
  unfold RunCurrentTurn, IsMyTurn.
  destruct (isMyTurn c); simpl; [|apply set_rt_extends].
  pose proof (ProduceBlock_extends E c (Head (state c)) now) as Hp.
  destruct (ProduceBlock E c (Head (state c)) now) as [c1 [e|]]; simpl in Hp.
  - pose proof (Stop_extends c1) as Hs.
    destruct (Stop c1) as [c2 k]; simpl in *.
    eapply extends_trans; [exact Hp|].
    eapply extends_trans; [exact Hs|apply set_rt_extends].
  - eapply extends_trans; [exact Hp|apply set_rt_extends].
Qed.

Lemma call_extends E c k : extends c (call E c k).
Proof.
  destruct k; simpl.
  - apply PushBlock_extends.
  - apply CheckAndPushNewBlock_extends.
  - apply PushResponedQuery_extends.
  - apply PushAckedQuery_extends.
  - apply VerifyAndPushResponsedQuery_extends.
  - apply VerifyAndPushAckedQuery_extends.
  - apply ProduceBlock_extends.
  - apply RunCurrentTurn_extends.
  - apply Stop_extends.
  - apply set_rt_extends.
Qed.

Lemma calls_extends E c ks : extends c (calls E c ks).
Proof.
  unfold calls. revert c. induction ks as [|k ks IH]; intros c; simpl.
  - apply extends_refl.
  - eapply extends_trans; [apply call_extends|apply IH].
Qed.

(** X11. No sequence of calls on a chain removes anything: the store
    keeps every key it had (the state key, the block keys, the heights and
    the request, response and ack keys under them), the block index keeps
    every block it had, and the configuration is the same. *)
Theorem calls_keep_everything E c ks :
  cfg (calls E c ks) = cfg c
  ∧ store_le (db c) (db (calls E c ks))
  ∧ (∀ h, HasBlock (bi c) h = true -> HasBlock (bi (calls E c ks)) h = true).
Proof.
  destruct (calls_extends E c ks) as (H1 & _ & H3 & H4 & _). done.
Qed.

Lemma PushBlock_success_coherent E c b c' :
  PushBlock E c b = (c', None) -> tip_coherent c'.
Proof.
  unfold PushBlock, db_Update, tx_Put.
  destruct (Block_MarshalBinary E b) as [|enc]; [done|]. simpl.
  destruct (bolt_Begin E true); [done|].
  destruct (bolt_Put E BktMeta _ _); [done|].
  destruct (bolt_Put E BktBlockIndex _ _); [done|].
  destruct (bolt_Commit E _); [done|].
  intros [= <-]. eexists. split_and!; try done.
  unfold LookupNode, AddBlock. simpl. apply lookup_insert_eq.
Qed.

Lemma NewChain_PushBlock E cfg0 file c :
  NewChain E cfg0 file = (Some c, None) ->
  ∃ pub,
    PushBlock E
      (mkChain cfg0 file newBlockIndex NewQueryIndex
         (newRuntime cfg0 pub (block_Timestamp (Genesis cfg0)))
         (mkState None
            (GenesisHash (sh_Header (b_SignedHeader (Genesis cfg0)))) (-1))
         false)
      (Genesis cfg0) = (c, None).
Proof.
  unfold NewChain.
  destruct (Block_VerifyAsGenesis E _); [done|].
  destruct (bolt_Open E); [done|].
  destruct (bolt_Begin E true); [done|].
  destruct (createBuckets E _); [done|].
  destruct (bolt_Commit E file); [done|].
  destruct (GetLocalPublicKey E) as [|pub]; [done|].
  destruct (PushBlock E _ _) as [c1 [e|]] eqn:Hp; [done|].
  intros [= <-]. by exists pub.
Qed.

Lemma NewChain_tip_coherent E cfg0 file c :
  NewChain E cfg0 file = (Some c, None) -> tip_coherent c.
Proof.
  intros [pub H]%NewChain_PushBlock. by eapply PushBlock_success_coherent.
Qed.

(** X12. On a chain that [NewChain] has built, after every sequence of
    calls, failed ones included, the state names a tip node by its hash
    and its height and the block index holds that node under the head. *)
Theorem tip_stays_coherent E cfg0 file c ks :
  NewChain E cfg0 file = (Some c, None) ->
  tip_coherent (calls E c ks).
Proof.
  intros H%NewChain_tip_coherent.
  by apply (calls_extends E c ks).
Qed.

Lemma tip_stays_coherent_witness :
  NewChain refEnv cfg0 emptyDB = (Some chainG, None)
  ∧ tip_coherent
      (calls refEnv chainG
         [CallPushBlock B1; CallPushAckedQuery A1; CallRunCurrentTurn 20;
          CallCheckAndPushNewBlock B2; CallStop]).
Proof.
  assert (H : NewChain refEnv cfg0 emptyDB = (Some chainG, None))
    by (vm_compute; reflexivity).
  split; [exact H|].
  exact (tip_stays_coherent refEnv cfg0 emptyDB chainG _ H).
Defined.

(** ** Admission of blocks *)

Lemma PushBlock_success E c b c' :
  PushBlock E c b = (c', None) ->
  let node := newBlockNode b (st_node (state c)) in
  state c' = mkState (Some node) (bn_hash node) (bn_height node)
  ∧ bi c' = AddBlock node (bi c)
  ∧ qi c' = SetSignedBlock (GetHeightFromTime (cfg c) (block_Timestamp b)) b
              (qi c)
  ∧ rt c' = rt c ∧ cfg c' = cfg c ∧ isMyTurn c' = isMyTurn c.
Proof.
  intros H node. revert H. unfold PushBlock, db_Update, tx_Put. fold node.
  destruct (Block_MarshalBinary E b) as [|enc]; [done|]. simpl.
  destruct (bolt_Begin E true); [done|].
  destruct (bolt_Put E BktMeta _ _); [done|].
  destruct (bolt_Put E BktBlockIndex _ _); [done|].
  destruct (bolt_Commit E _); [done|].
  by intros [= <-].
Qed.

Lemma PushBlock_error_ext E c b e :
  (PushBlock E c b).2 = Some e -> ∃ x, e = ErrExt x.
Proof.
  unfold PushBlock, db_Update, tx_Put.
  destruct (Block_MarshalBinary E b) as [|enc]; [intros [= <-]; eauto|].
  simpl. destruct (bolt_Begin E true); [intros [= <-]; eauto|].
  destruct (bolt_Put E BktMeta _ _); [intros [= <-]; eauto|].
  destruct (bolt_Put E BktBlockIndex _ _); [intros [= <-]; eauto|].
  destruct (bolt_Commit E _); [intros [= <-]; eauto|]. done.
Qed.

Lemma checkQueries_error c h blk qs e :
  checkQueries c h blk qs = Some e -> e = ErrMultipleAcksInBlocks.
Proof.
  induction qs as [|q qs IH]; simpl; [done|].
  unfold CheckAckFromBlock.
  destruct (hi_acks (heightIndex (qi c) h) !! q) as [a|]; [|done].
  destruct (forallb _ _); [done|]. by intros [= <-].
Qed.

(** What the acceptance of a block implies. *)
Lemma CheckAndPushNewBlock_admitted E c b c' :
  CheckAndPushNewBlock E c b = (c', None) ->
  block_ParentHash b = Head (state c)
  ∧ HasBlock (bi c) (block_BlockHash b) = false
  ∧ GetHeightFromTime (cfg c) (block_Timestamp b) = add32 (Height (state c)) 1
  ∧ Block_Verify E b = None
  ∧ PushBlock E c b = (c', None)
  ∧ Head (state c') = block_BlockHash b
  ∧ HasBlock (bi c') (block_BlockHash b) = true.
Proof.
  unfold CheckAndPushNewBlock, Hash_IsEqual.
  case_bool_decide as Hp; [|done]. simpl.
  destruct (HasBlock (bi c) (block_BlockHash b)) eqn:Hhas; [done|].
  destruct (Z.eqb_spec (GetHeightFromTime (cfg c) (block_Timestamp b))
              (add32 (Height (state c)) 1)) as [Hh|]; [|done]. simpl.
  destruct (checkQueries c _ _ _); [done|].
  destruct (Block_Verify E b); [done|].
  intros Hpush. destruct (PushBlock_success E c b c' Hpush) as (Hs & Hbi & _).
  split_and!; try done.
  - by rewrite Hs.
  - rewrite Hbi. unfold HasBlock, AddBlock. apply bool_decide_eq_true.
    simpl. rewrite lookup_insert_eq. eauto.
Qed.

(** X13. A block that [CheckAndPushNewBlock] accepts names the head as
    its parent, was not in the block index, has a timestamp of the period
    after the head's height, and passed verification; it is then the head
    and in the block index. *)
Theorem CheckAndPushNewBlock_accepts E c b c' :
  CheckAndPushNewBlock E c b = (c', None) ->
  block_ParentHash b = Head (state c)
  ∧ HasBlock (bi c) (block_BlockHash b) = false
  ∧ GetHeightFromTime (cfg c) (block_Timestamp b) = add32 (Height (state c)) 1
  ∧ Block_Verify E b = None
  ∧ PushBlock E c b = (c', None)
  ∧ Head (state c') = block_BlockHash b
  ∧ HasBlock (bi c') (block_BlockHash b) = true.
Proof. exact (CheckAndPushNewBlock_admitted E c b c'). Qed.

Lemma CheckAndPushNewBlock_accepts_witness :
  CheckAndPushNewBlock refEnv chainG B1
  = ((CheckAndPushNewBlock refEnv chainG B1).1, None)
  ∧ block_ParentHash B1 = Head (state chainG)
  ∧ Head (state (CheckAndPushNewBlock refEnv chainG B1).1)
    = block_BlockHash B1.
Proof.
  assert (H : CheckAndPushNewBlock refEnv chainG B1
              = ((CheckAndPushNewBlock refEnv chainG B1).1, None))
    by (vm_compute; reflexivity).
  split; [exact H|].
  destruct (CheckAndPushNewBlock_accepts refEnv chainG B1 _ H)
    as (Hp & _ & _ & _ & _ & Hh & _).
  split; [exact Hp|exact Hh].
Defined.

(** X14. A block that [CheckAndPushNewBlock] has accepted is refused when
    it is offered again, with [ErrInvalidBlock] or [ErrBlockExists], and
    the chain stays as the first call left it. *)
Theorem CheckAndPushNewBlock_rejects_again E c b c' :
  CheckAndPushNewBlock E c b = (c', None) ->
  CheckAndPushNewBlock E c' b = (c', Some ErrInvalidBlock)
  ∨ CheckAndPushNewBlock E c' b = (c', Some ErrBlockExists).
Proof.
  intros H. destruct (CheckAndPushNewBlock_admitted E c b c' H)
    as (_ & _ & _ & _ & _ & Hhead & Hhas).
  unfold CheckAndPushNewBlock, Hash_IsEqual.
  case_bool_decide; simpl; [|by left]. rewrite Hhas. by right.
Qed.

Lemma CheckAndPushNewBlock_rejects_again_witness :
  CheckAndPushNewBlock refEnv chainG B1
  = ((CheckAndPushNewBlock refEnv chainG B1).1, None)
  ∧ (CheckAndPushNewBlock refEnv
       (CheckAndPushNewBlock refEnv chainG B1).1 B1).2 ≠ None.
Proof.
  assert (H : CheckAndPushNewBlock refEnv chainG B1
              = ((CheckAndPushNewBlock refEnv chainG B1).1, None))
    by (vm_compute; reflexivity).
  split; [exact H|].
  by destruct (CheckAndPushNewBlock_rejects_again refEnv chainG B1 _ H)
    as [-> | ->].
Defined.

(** X15. [CheckAndPushNewBlock] answers [ErrBlockExists] exactly for the
    blocks that name the head as parent and are in the block index, and
    [ErrBlockTimestampOutOfPeriod] exactly for those that name the head,
    are new, and have a timestamp of another period than the next; and
    whenever it answers with an error of its own, not one of a
    collaborator, the chain is as it was. *)
Theorem CheckAndPushNewBlock_own_errors E c b :
  ((CheckAndPushNewBlock E c b).2 = Some ErrBlockExists
   ↔ block_ParentHash b = Head (state c)
     ∧ HasBlock (bi c) (block_BlockHash b) = true)
  ∧ ((CheckAndPushNewBlock E c b).2 = Some ErrBlockTimestampOutOfPeriod
     ↔ block_ParentHash b = Head (state c)
       ∧ HasBlock (bi c) (block_BlockHash b) = false
       ∧ GetHeightFromTime (cfg c) (block_Timestamp b)
         ≠ add32 (Height (state c)) 1)
  ∧ (∀ e, (CheckAndPushNewBlock E c b).2 = Some e ->
          (∀ x, e ≠ ErrExt x) -> (CheckAndPushNewBlock E c b).1 = c).
Proof.
  unfold CheckAndPushNewBlock, Hash_IsEqual.
  case_bool_decide as Hp; simpl.
  2: { split_and!; try done; intuition congruence. }
  destruct (HasBlock (bi c) (block_BlockHash b)) eqn:Hhas; simpl.
  { split_and!; try done; intuition congruence. }
  destruct (Z.eqb_spec (GetHeightFromTime (cfg c) (block_Timestamp b))
              (add32 (Height (state c)) 1)) as [Hh|Hh]; simpl.
  2: { split_and!; try done; intuition congruence. }
  destruct (checkQueries c _ _ _) as [e|] eqn:Hq; simpl.
  { apply checkQueries_error in Hq as ->. split_and!; try done; intuition congruence. }
  destruct (Block_Verify E b); simpl.
  { split_and!; try done; intuition congruence. }
  split_and!.
  - split; [|intuition congruence]. intros [x [=]]%PushBlock_error_ext.
  - split; [|intuition congruence]. intros [x [=]]%PushBlock_error_ext.
  - intros e [x ->]%PushBlock_error_ext Hne. by destruct (Hne x).
Qed.

(** The tip after a block push on a coherent chain. *)
Lemma PushBlock_raises_tip E c b c' :
  tip_coherent c ->
  PushBlock E c b = (c', None) ->
  Head (state c') = block_BlockHash b
  ∧ Height (state c') = add32 (Height (state c)) 1
  ∧ (bn_parent <$> st_node (state c')) = Some (st_node (state c))
  ∧ (-2147483648 <= Height (state c) < 2147483647 ->
     Height (state c') = Height (state c) + 1).
Proof.
  intros (n & Hn & Hhead & Hheight & _) Hpush.
  destruct (PushBlock_success E c b c' Hpush) as (Hs & _).
  rewrite Hs, Hn. simpl. rewrite Hheight. split_and!; try done.
  intros Hlt. by apply add32_succ.
Qed.

(** X16. On a chain with a coherent tip, a block push that succeeds makes
    the block's hash the head and the old tip the parent of the new one,
    and raises the height by one, in int32 arithmetic: by exactly one
    below the largest int32. *)
Theorem PushBlock_height E c b c' :
  tip_coherent c ->
  PushBlock E c b = (c', None) ->
  Head (state c') = block_BlockHash b
  ∧ Height (state c') = add32 (Height (state c)) 1
  ∧ (bn_parent <$> st_node (state c')) = Some (st_node (state c))
  ∧ (-2147483648 <= Height (state c) < 2147483647 ->
     Height (state c') = Height (state c) + 1).
Proof. exact (PushBlock_raises_tip E c b c'). Qed.

Lemma PushBlock_height_witness :
  tip_coherent chainG
  ∧ PushBlock refEnv chainG B1 = ((PushBlock refEnv chainG B1).1, None)
  ∧ Height (state chainG) = 0
  ∧ Height (state (PushBlock refEnv chainG B1).1) = 1.
Proof.
  assert (Hc : tip_coherent chainG).
  { apply (NewChain_tip_coherent refEnv cfg0 emptyDB). vm_compute. reflexivity. }
  assert (H : PushBlock refEnv chainG B1
              = ((PushBlock refEnv chainG B1).1, None))
    by (vm_compute; reflexivity).
  split; [exact Hc|]. split; [exact H|]. split; [reflexivity|].
  destruct (PushBlock_height refEnv chainG B1 _ Hc H) as (_ & _ & _ & Hh).
  apply Hh. vm_compute. split; [discriminate|reflexivity].
Defined.

(** X17. On a chain with a coherent tip, a block that
    [CheckAndPushNewBlock] accepts becomes the tip at the height of its
    timestamp, and the parent of its node is the node of the block's
    parent hash. *)
Theorem CheckAndPushNewBlock_height E c b c' :
  tip_coherent c ->
  CheckAndPushNewBlock E c b = (c', None) ->
  Height (state c') = GetHeightFromTime (cfg c) (block_Timestamp b)
  ∧ (bn_hash <$> (st_node (state c') ≫= bn_parent)) = Some (block_ParentHash b).
Proof.
  intros Hc H.
  destruct (CheckAndPushNewBlock_admitted E c b c' H)
    as (Hp & _ & Hh & _ & Hpush & _).
  destruct (PushBlock_raises_tip E c b c' Hc Hpush) as (_ & Hheight & Hpar & _).
  split; [congruence|].
  destruct Hc as (n & Hn & Hhead & _).
  destruct (st_node (state c')) as [n'|]; simpl in *; [|done].
  injection Hpar as Hpar. rewrite Hpar, Hn. simpl. congruence.
Qed.

Lemma CheckAndPushNewBlock_height_witness :
  tip_coherent chainG
  ∧ CheckAndPushNewBlock refEnv chainG B1
    = ((CheckAndPushNewBlock refEnv chainG B1).1, None)
  ∧ Height (state (CheckAndPushNewBlock refEnv chainG B1).1)
    = GetHeightFromTime cfg0 (block_Timestamp B1).
Proof.
  assert (Hc : tip_coherent chainG).
  { apply (NewChain_tip_coherent refEnv cfg0 emptyDB). vm_compute. reflexivity. }
  assert (H : CheckAndPushNewBlock refEnv chainG B1
              = ((CheckAndPushNewBlock refEnv chainG B1).1, None))
    by (vm_compute; reflexivity).
  split; [exact Hc|]. split; [exact H|].
  exact (proj1 (CheckAndPushNewBlock_height refEnv chainG B1 _ Hc H)).
Defined.

(** ** Verifying pushes, turns and the producing cycle *)

(** X18. A verifying push that succeeds found the timestamp fresh and the
    signature good, and did what the plain push does; a header that fails
    verification is refused with the chain as it was. *)
Theorem verifying_push_admits E c :
  (∀ resp c',
     VerifyAndPushResponsedQuery E c resp = (c', None) ->
     queryTimeIsExpired c (resp_Timestamp resp) = false
     ∧ Response_Verify E resp = None
     ∧ PushResponedQuery E c resp = (c', None))
  ∧ (∀ ack c',
     VerifyAndPushAckedQuery E c ack = (c', None) ->
     queryTimeIsExpired c (resp_Timestamp (ack_SignedResponseHeader ack))
     = false
     ∧ Ack_Verify E ack = None
     ∧ PushAckedQuery E c ack = (c', None))
  ∧ (∀ resp e, Response_Verify E resp = Some e ->
       (VerifyAndPushResponsedQuery E c resp).1 = c
       ∧ (VerifyAndPushResponsedQuery E c resp).2 ≠ None)
  ∧ (∀ ack e, Ack_Verify E ack = Some e ->
       (VerifyAndPushAckedQuery E c ack).1 = c
       ∧ (VerifyAndPushAckedQuery E c ack).2 ≠ None).
Proof.
  unfold VerifyAndPushResponsedQuery, VerifyAndPushAckedQuery. split_and!.
  - intros resp c'. destruct (queryTimeIsExpired c _); [done|].
    by destruct (Response_Verify E resp).
  - intros ack c'. destruct (queryTimeIsExpired c _); [done|].
    by destruct (Ack_Verify E ack).
  - intros resp e ->. by destruct (queryTimeIsExpired c _).
  - intros ack e ->. by destruct (queryTimeIsExpired c _).
Qed.

Lemma RunCurrentTurn_NextTurn E c now :
  NextTurn (rt (RunCurrentTurn E c now).1) = add32 (NextTurn (rt c)) 1
  ∧ cfg (RunCurrentTurn E c now).1 = cfg c.
Proof.
  split; [|apply RunCurrentTurn_extends].
  unfold RunCurrentTurn, IsMyTurn. destruct (isMyTurn c); simpl; [|done].
  destruct (ProduceBlock_rt E c (Head (state c)) now) as (_ & Ht & _).
  destruct (ProduceBlock E c (Head (state c)) now) as [c1 [e|]]; simpl in *.
  - destruct (Stop_rt c1) as (_ & Ht' & _).
    destruct (Stop c1) as [c2 k]; simpl in *. congruence.
  - congruence.
Qed.

(** X19. A timestamp that has expired stays expired after the next turn,
    as long as the turn counter and its distance to the time to live stay
    within int32. *)
Theorem expired_stays_expired E c now t :
  is_int32 (NextTurn (rt c) - QueryTTL (cfg c)) ->
  is_int32 (NextTurn (rt c) + 1 - QueryTTL (cfg c)) ->
  is_int32 (NextTurn (rt c) + 1) ->
  queryTimeIsExpired c t = true ->
  queryTimeIsExpired (RunCurrentTurn E c now).1 t = true.
Proof.
  intros H1 H2 H3. unfold queryTimeIsExpired.
  destruct (RunCurrentTurn_NextTurn E c now) as [-> ->].
  unfold add32. rewrite (wrap32_id _ H3), !sub32_exact by done.
  intros H%Z.ltb_lt. apply Z.ltb_lt. lia.
Qed.

Lemma expired_stays_expired_witness :
  queryTimeIsExpired chainG (-5) = true
  ∧ queryTimeIsExpired (RunCurrentTurn refEnv chainG 10).1 (-5) = true.
Proof.
  assert (H : queryTimeIsExpired chainG (-5) = true) by reflexivity.
  split; [exact H|].
  apply (expired_stays_expired refEnv chainG 10 (-5)); try exact H;
    (vm_compute; (split; [discriminate|reflexivity])).
Defined.

(** X20. When the turn is this node's, production fails and the stop
    channel is already closed, [RunCurrentTurn] faults in [Stop], and the
    deferred [SetNextTurn] has advanced the turn all the same. *)
Theorem RunCurrentTurn_fault_still_advances E c now :
  IsMyTurn c = true ->
  stopCh (rt c) = ChanClosed ->
  (ProduceBlock E c (Head (state c)) now).2 ≠ None ->
  (RunCurrentTurn E c now).2 = Panic
  ∧ NextTurn (rt (RunCurrentTurn E c now).1) = add32 (NextTurn (rt c)) 1
  ∧ stopCh (rt (RunCurrentTurn E c now).1) = ChanClosed.
Proof.
  intros Hturn Hclosed Hfail.
  split_and!; [| apply RunCurrentTurn_NextTurn |].
  - unfold RunCurrentTurn. rewrite Hturn. simpl.
    destruct (ProduceBlock_rt E c (Head (state c)) now) as (_ & _ & Hs).
    destruct (ProduceBlock E c (Head (state c)) now) as [c1 [e|]];
      simpl in *; [|done].
    unfold Stop, Runtime_Stop. rewrite Hs, Hclosed. simpl. by rewrite ?Hs, ?Hclosed.
  - unfold RunCurrentTurn. rewrite Hturn. simpl.
    destruct (ProduceBlock_rt E c (Head (state c)) now) as (_ & _ & Hs).
    destruct (ProduceBlock E c (Head (state c)) now) as [c1 [e|]];
      simpl in *; [|done].
    unfold Stop, Runtime_Stop. rewrite Hs, Hclosed. simpl. by rewrite ?Hs, ?Hclosed.
Qed.

Lemma RunCurrentTurn_fault_still_advances_witness :
  IsMyTurn (Stop (set_isMyTurn true chainG)).1 = true
  ∧ stopCh (rt (Stop (set_isMyTurn true chainG)).1) = ChanClosed
  ∧ (RunCurrentTurn signFailsEnv (Stop (set_isMyTurn true chainG)).1 10).2
    = Panic
  ∧ NextTurn
      (rt (RunCurrentTurn signFailsEnv
             (Stop (set_isMyTurn true chainG)).1 10).1) = 2.
Proof.
  assert (H1 : IsMyTurn (Stop (set_isMyTurn true chainG)).1 = true)
    by reflexivity.
  assert (H2 : stopCh (rt (Stop (set_isMyTurn true chainG)).1) = ChanClosed)
    by reflexivity.
  split; [exact H1|]. split; [exact H2|].
  destruct (RunCurrentTurn_fault_still_advances signFailsEnv
              (Stop (set_isMyTurn true chainG)).1 10 H1 H2)
    as (Hp & Hn & _); [vm_compute; discriminate|].
  split; [exact Hp|]. rewrite Hn. reflexivity.
Defined.

(** X21. A block production that fails leaves the store as it was, and the
    in-memory state too unless the failure is the commit's; when the key
    store has no private key it leaves the whole chain as it was. *)
Theorem ProduceBlock_failure E c parent now :
  (ProduceBlock E c parent now).2 ≠ None ->
  db (ProduceBlock E c parent now).1 = db c
  ∧ ((∀ tx, bolt_Commit E tx = None) ->
     memory (ProduceBlock E c parent now).1 = memory c)
  ∧ (∀ e, GetLocalPrivateKey E = inl e ->
          ProduceBlock E c parent now = (c, Some (ErrExt e))).
Proof.
  unfold ProduceBlock. destruct (GetLocalPrivateKey E) as [e|priv].
  { intros _. split_and!; try done. by intros e' [= <-]. }
  destruct (PackAndSignBlock E _ _) as [pending [e|]].
  { intros _. split_and!; done. }
  intros Hfail.
  destruct (PushBlock_failure E _ _ Hfail) as [Hdb Hmem].
  split_and!; try done. intros Hno. by rewrite (Hmem Hno).
Qed.

Lemma ProduceBlock_failure_witness :
  (ProduceBlock signFailsEnv chainG (Head (state chainG)) 10).2 ≠ None
  ∧ memory (ProduceBlock signFailsEnv chainG (Head (state chainG)) 10).1
    = memory chainG.
Proof.
  assert (H : (ProduceBlock signFailsEnv chainG (Head (state chainG)) 10).2
              ≠ None) by (vm_compute; discriminate).
  split; [exact H|].
  destruct (ProduceBlock_failure signFailsEnv chainG (Head (state chainG)) 10 H)
    as (_ & Hm & _).
  apply Hm. reflexivity.
Defined.

(** X22. [NewChain] returns a chain exactly when it returns no error. A
    genesis block that fails verification is that error. The chain it
    returns has the genesis block, verified, as its head at height 0 with
    a parentless node, in the block index; its turn counter is 1, its
    initial time the genesis timestamp, its stop channel open, and the
    turn is not this node's. *)
Theorem NewChain_result E cfg0 file :
  (is_Some (NewChain E cfg0 file).1 ↔ (NewChain E cfg0 file).2 = None)
  ∧ (∀ e, Block_VerifyAsGenesis E (Genesis cfg0) = Some e ->
          NewChain E cfg0 file = (None, Some (ErrExt e)))
  ∧ (∀ c, NewChain E cfg0 file = (Some c, None) ->
          Block_VerifyAsGenesis E (Genesis cfg0) = None
          ∧ cfg c = cfg0
          ∧ Head (state c) = block_BlockHash (Genesis cfg0)
          ∧ Height (state c) = 0
          ∧ (bn_parent <$> st_node (state c)) = Some None
          ∧ HasBlock (bi c) (block_BlockHash (Genesis cfg0)) = true
          ∧ NextTurn (rt c) = 1
          ∧ ChainInitTime (rt c) = block_Timestamp (Genesis cfg0)
          ∧ stopCh (rt c) = ChanOpen
          ∧ IsMyTurn c = false).
Proof.
  split_and!.
  - unfold NewChain. repeat (case_match; simpl; try done);
      split; try done; by intros [].
  - unfold NewChain. by intros e ->.
  - intros c H. pose proof H as [pub Hp]%NewChain_PushBlock.
    destruct (PushBlock_success E _ _ _ Hp) as (Hs & Hbi & _ & Hrt & Hcfg & Hmy).
    simpl in *. rewrite Hs, Hbi, Hrt, Hcfg. unfold IsMyTurn. rewrite Hmy.
    split_and!; try done.
    + revert H. unfold NewChain. by destruct (Block_VerifyAsGenesis E _).
    + unfold HasBlock, AddBlock. apply bool_decide_eq_true. simpl.
      rewrite lookup_insert_eq. eauto.
Qed.

(** X23. [LoadChain] never returns neither chain nor error. A chain it
    returns, with or without an error, has the configuration and the store
    it was given, turn counter 1, the zero time as initial time, an open
    stop channel, and a turn that is not this node's; from a store that
    has its buckets but no state key it returns an error with an empty
    chain. *)
Theorem LoadChain_result E cfg0 file :
  (∀ r, LoadChain E cfg0 file = Returns (None, r) -> r ≠ None)
  ∧ (∀ c r, LoadChain E cfg0 file = Returns (Some c, r) ->
       cfg c = cfg0 ∧ db c = file
       ∧ NextTurn (rt c) = 1
       ∧ ChainInitTime (rt c) = zeroTime
       ∧ stopCh (rt c) = ChanOpen
       ∧ IsMyTurn c = false
       ∧ (meta_state file = None ->
          r ≠ None ∧ state c = mkState None zeroHash 0 ∧ qi c = ∅)).
Proof.
  unfold LoadChain. split.
  - intros r. repeat (case_match; simpl; try done); by intros [= <-].
  - intros c r.
    destruct (bolt_Open E); [done|].
    destruct (GetLocalPublicKey E) as [|pub]; [done|].
    destruct (bolt_Begin E false); [by intros [= <- <-]|].
    destruct (meta_state file) as [enc|] eqn:Hm; simpl.
    + destruct (State_UnmarshalBinary _ enc) as [s [e|]];
        [by intros [= <- <-]|].
      destruct (loadBlocks E _ None (meta_blocks file));
        [by intros [= <- <-]|].
      destruct (loadHeights E _ _) as [[q r']|]; [|done].
      by intros [= <- <-].
    + by intros [= <- <-].
Qed.

(** X24. [FetchBlock] never returns a block: when it returns, the block is
    nil, and when it returns no error either, the height has no node on
    the best chain. *)
Theorem FetchBlock_never_returns_block E c h ob r :
  FetchBlock E c h = Returns (ob, r) ->
  ob = None
  ∧ (r = None -> ancestor (st_node (state c)) h = None).
Proof.
  unfold FetchBlock.
  destruct (ancestor (st_node (state c)) h); [|by intros [= <- <-]].
  destruct (bolt_Begin E false); [by intros [= <- <-]|]. done.
Qed.

Lemma FetchBlock_never_returns_block_witness :
  FetchBlock refEnv chainB2 5 = Returns (None, None)
  ∧ ancestor (st_node (state chainB2)) 5 = None.
Proof.
  assert (H : FetchBlock refEnv chainB2 5 = Returns (None, None))
    by (vm_compute; reflexivity).
  split; [exact H|].
  by apply (FetchBlock_never_returns_block refEnv chainB2 5 None None H).
Defined.

(** One round of the producing cycle. *)
Lemma BlockProducingCycle_round E local readings c :
  BlockProducingCycle E (local :: readings) c
  = match stopCh (rt c) with
    | ChanClosed => Some (c, Normal)
    | ChanOpen =>
        if 0 <? (TillNextTurn (rt c) local).2
        then BlockProducingCycle E readings c
        else
          match RunCurrentTurn E c (TillNextTurn (rt c) local).1 with
          | (c', Normal) => BlockProducingCycle E readings c'
          | (c', Panic) => Some (c', Panic)
          end
    end.
Proof. reflexivity. Qed.

(** X25. The producing cycle, left alone with the chain, ends only by the
    stop channel: whenever it returns, the channel is closed and no turn
    has faulted. *)
Theorem BlockProducingCycle_exit E readings c c' k :
  BlockProducingCycle E readings c = Some (c', k) ->
  k = Normal ∧ stopCh (rt c') = ChanClosed.
Proof.
  revert c. induction readings as [|local readings IH]; intros c.
  - simpl. destruct (stopCh (rt c)) eqn:Hs; [done|]. by intros [= <- <-].
  - rewrite BlockProducingCycle_round.
    destruct (stopCh (rt c)) eqn:Hs; [|by intros [= <- <-]].
    destruct (TillNextTurn (rt c) local) as [t d]. simpl.
    destruct (0 <? d); [apply IH|].
    destruct (RunCurrentTurn E c t) as [c1 [|]] eqn:Hr; [apply IH|].
    exfalso. revert Hr. unfold RunCurrentTurn.
    destruct (negb (IsMyTurn c)); [done|].
    destruct (ProduceBlock_rt E c (Head (state c)) t) as (_ & _ & Hst).
    destruct (ProduceBlock E c (Head (state c)) t) as [c2 [e|]];
      simpl in *; [|done].
    unfold Stop, Runtime_Stop. rewrite Hst, Hs. done.
Qed.

Lemma BlockProducingCycle_exit_witness :
  BlockProducingCycle signFailsEnv [10] (set_isMyTurn true chainG)
  = Some ((RunCurrentTurn signFailsEnv (set_isMyTurn true chainG) 10).1,
          Normal)
  ∧ stopCh (rt (RunCurrentTurn signFailsEnv (set_isMyTurn true chainG) 10).1)
    = ChanClosed.
Proof.
  assert (H : BlockProducingCycle signFailsEnv [10] (set_isMyTurn true chainG)
              = Some ((RunCurrentTurn signFailsEnv
                         (set_isMyTurn true chainG) 10).1, Normal))
    by (vm_compute; reflexivity).
  split; [exact H|].
  exact (proj2 (BlockProducingCycle_exit signFailsEnv [10]
                  (set_isMyTurn true chainG) _ _ H)).
Defined.

(** With the stop channel closed the cycle returns at once. *)
Lemma BlockProducingCycle_closed E readings c :
  stopCh (rt c) = ChanClosed ->
  BlockProducingCycle E readings c = Some (c, Normal).
Proof. intros Hs. destruct readings; simpl; by rewrite Hs. Qed.

(** X26. When a round finds the stop channel open, the turn due and this
    node's, and production fails, the cycle runs that turn and returns
    before another round reads the clock, and so does [Start], without
    error. *)
Theorem BlockProducingCycle_stops_on_failure E local readings c :
  stopCh (rt c) = ChanOpen ->
  (TillNextTurn (rt c) local).2 <= 0 ->
  IsMyTurn c = true ->
  (ProduceBlock E c (Head (state c)) (TillNextTurn (rt c) local).1).2 ≠ None ->
  BlockProducingCycle E (local :: readings) c
  = Some ((RunCurrentTurn E c (TillNextTurn (rt c) local).1).1, Normal)
  ∧ Start E (local :: readings) c
    = Some ((RunCurrentTurn E c (TillNextTurn (rt c) local).1).1, Normal, None).
Proof.
  intros Hopen Hd Hturn Hfail.
  assert (Hcycle : BlockProducingCycle E (local :: readings) c
    = Some ((RunCurrentTurn E c (TillNextTurn (rt c) local).1).1, Normal)).
  { rewrite BlockProducingCycle_round, Hopen.
    destruct (TillNextTurn (rt c) local) as [t d]. simpl in *.
    destruct (Z.ltb_spec 0 d); [lia|].
    assert (Hr : (RunCurrentTurn E c t).2 = Normal
                 ∧ stopCh (rt (RunCurrentTurn E c t).1) = ChanClosed).
    { unfold RunCurrentTurn. rewrite Hturn. simpl.
      destruct (ProduceBlock_rt E c (Head (state c)) t) as (_ & _ & Hst).
      destruct (ProduceBlock E c (Head (state c)) t) as [c2 [e|]];
        simpl in *; [|done].
      unfold Stop, Runtime_Stop. rewrite Hst, Hopen. done. }
    destruct (RunCurrentTurn E c t) as [c1 k]. simpl in Hr.
    destruct Hr as [-> Hc]. by apply BlockProducingCycle_closed. }
  split; [exact Hcycle|]. unfold Start, Sync. by rewrite Hcycle.
Qed.

Lemma BlockProducingCycle_stops_on_failure_witness :
  stopCh (rt (set_isMyTurn true chainG)) = ChanOpen
  ∧ (TillNextTurn (rt (set_isMyTurn true chainG)) 10).2 <= 0
  ∧ Start signFailsEnv [10; 11; 12] (set_isMyTurn true chainG)
    = Some ((RunCurrentTurn signFailsEnv (set_isMyTurn true chainG)
               (TillNextTurn (rt (set_isMyTurn true chainG)) 10).1).1,
            Normal, None).
Proof.
  assert (H1 : stopCh (rt (set_isMyTurn true chainG)) = ChanOpen)
    by reflexivity.
  assert (H2 : (TillNextTurn (rt (set_isMyTurn true chainG)) 10).2 <= 0)
    by (vm_compute; discriminate).
  split; [exact H1|]. split; [exact H2|].
  apply (BlockProducingCycle_stops_on_failure signFailsEnv 10 [11; 12]
           (set_isMyTurn true chainG) H1 H2); [reflexivity|].
  vm_compute. discriminate.
Defined.

(** X27. After [UpdateTime] has been given the coordinated time [now] at
    the local reading [local], [Now] returns [now] at that reading and
    [now] plus the local time elapsed at a later one, when the offset
    fits a duration; the turn counter and the stop channel are as they
    were. *)
Theorem UpdateTime_Now r now local local' :
  is_int64 (now - local) ->
  Now (UpdateTime r now local) local' = now + (local' - local)
  ∧ Now (UpdateTime r now local) local = now
  ∧ NextTurn (UpdateTime r now local) = NextTurn r
  ∧ stopCh (UpdateTime r now local) = stopCh r.
Proof.
  unfold is_int64, Now, UpdateTime, Time_Add, Time_Sub. intros H. simpl.
  destruct (Z.ltb_spec (now - local) minDuration); [lia|].
  destruct (Z.ltb_spec maxDuration (now - local)); [lia|].
  split_and!; try done; lia.
Qed.

Lemma UpdateTime_Now_witness :
  is_int64 (100 - 90)
  ∧ Now (UpdateTime (rt chainG) 100 90) 95 = 105.
Proof.
  assert (H : is_int64 (100 - 90))
    by (vm_compute; split; discriminate).
  split; [exact H|].
  exact (proj1 (UpdateTime_Now (rt chainG) 100 90 95 H)).
Defined.

(** X28. [TillNextTurn] reads the coordinated time and returns a wait that
    never exceeds the time resolution, so that with a time resolution of
    zero or less no round ever sleeps; when the arithmetic stays within
    int64 the wait is the smaller of the time resolution and the time
    left to the start of the next turn. *)
Theorem TillNextTurn_wait r local :
  (TillNextTurn r local).1 = Now r local
  ∧ (TillNextTurn r local).2 <= rt_TimeResolution r
  ∧ (rt_TimeResolution r <= 0 -> (TillNextTurn r local).2 <= 0)
  ∧ (is_int64 (NextTurn r * rt_Period r) ->
     is_int64 (ChainInitTime r + NextTurn r * rt_Period r - Now r local) ->
     (TillNextTurn r local).2
     = Z.min (rt_TimeResolution r)
             (ChainInitTime r + NextTurn r * rt_Period r - Now r local)).
Proof.
  unfold TillNextTurn. simpl.
  set (d := Time_Sub _ _). split; [done|].
  assert (Hle : (if rt_TimeResolution r <? d then rt_TimeResolution r else d)
                <= rt_TimeResolution r)
    by (destruct (Z.ltb_spec (rt_TimeResolution r) d); lia).
  split; [done|]. split; [intros; etrans; [exact Hle|done]|].
  intros H1 H2.
  assert (Hw : wrap64 (NextTurn r * rt_Period r) = NextTurn r * rt_Period r).
  { unfold is_int64, minDuration, maxDuration, wrap64 in *.
    destruct (Z.ltb_spec ((NextTurn r * rt_Period r) mod 18446744073709551616)
                9223372036854775808); Z.div_mod_to_equations; lia. }
  assert (Hd : d = ChainInitTime r + NextTurn r * rt_Period r - Now r local).
  { unfold d, Time_Sub, Time_Add. rewrite Hw. unfold is_int64 in H2.
    destruct (Z.ltb_spec (ChainInitTime r + NextTurn r * rt_Period r
                          - Now r local) minDuration); [lia|].
    destruct (Z.ltb_spec maxDuration
                (ChainInitTime r + NextTurn r * rt_Period r - Now r local));
      [lia|done]. }
  rewrite <- Hd. destruct (Z.ltb_spec (rt_TimeResolution r) d); lia.
Qed.
